(** * A line-oriented TCP echo server: growable buffer and connection adapter

    Shallow embedding of [dynBuf.ts] (the growable byte buffer with
    newline framing) and of the promise-based connection adapter
    ([soRead], [soWrite], [soInit], [serveClient], [newConn]), and of
    the callback-based echo server of [tcp-server-callback.js].

    JavaScript [number]s that hold lengths and offsets are modelled as
    unbounded integers [Z] (no fractional values, no overflow to
    Infinity, and allocation never fails for lack of memory).  A Node
    [Buffer] is a view (backing store, offset, length) into a store of
    byte arrays, so that aliasing between views is visible. *)

From Stdlib Require Import ZArith Lia.
From Stdlib Require Import Strings.Byte.
From stdpp Require Import base relations list strings.

#[global] Instance byte_eq_decision : EqDecision byte := byte_eq_dec.

(** ** Node.js [Buffer] operations used by the sources *)

Module Node.

(** Values thrown by the runtime or by the program. *)
Inductive JsError :=
| RangeError (what : string)
| Error (message : string).

Inductive Completion (A : Type) :=
| Normal (a : A)
| Throw (e : JsError).
Arguments Normal {A} a.
Arguments Throw {A} e.

(** A [Buffer] is a [Uint8Array] view: the backing array it refers to,
    where it starts in it and how many bytes it spans ([.length]). *)
Record Buffer := mkBuffer { base : nat; byteOffset : nat; blength : nat }.

(** The store: every backing array allocated so far, by allocation order. *)
Abbreviation Store := (list (list byte)).

Definition backing (st : Store) (a : nat) : list byte := default [] (st !! a).

(** The bytes a view currently shows. *)
Definition bytes_of (st : Store) (b : Buffer) : list byte :=
  take (blength b) (drop (byteOffset b) (backing st (base b))).

(** Overwrite [length bs] bytes of an array from index [i] on. *)
Definition splice (i : nat) (bs arr : list byte) : list byte :=
  take i arr ++ bs ++ drop (i + length bs) arr.

(** Write [bs] into the view [b] from its index [pos] on. *)
Definition write_at (st : Store) (b : Buffer) (pos : nat) (bs : list byte) : Store :=
  alter (splice (byteOffset b + pos) bs) (base b) st.

(** A view that lies inside an allocated array. *)
Definition view_ok (st : Store) (b : Buffer) : Prop :=
  base b < length st ∧ byteOffset b + blength b ≤ length (backing st (base b)).

(** Relative index of [TypedArray.prototype.subarray] and [copyWithin]:
    negative indices count from the end, everything is clamped to
    [0, len]. *)
Definition rel_index (len : nat) (i : Z) : nat :=
  if (i <? 0)%Z then Z.to_nat (Z.max (Z.of_nat len + i) 0)
  else Z.to_nat (Z.min i (Z.of_nat len)).

(** [b.subarray(start, end)]: a view on the same backing array. *)
Definition subarray (b : Buffer) (start end_ : Z) : Buffer :=
  let bg := rel_index (blength b) start in
  let fin := rel_index (blength b) end_ in
  mkBuffer (base b) (byteOffset b + bg) (fin - bg).

(** [Buffer.alloc(size)]: a fresh zero-filled array. *)
Definition alloc (size : Z) (st : Store) : Store * Completion Buffer :=
  if (size <? 0)%Z then (st, Throw (RangeError "size"))
  else (st ++ [replicate (Z.to_nat size) x00],
        Normal (mkBuffer (length st) 0 (Z.to_nat size))).

(** [Buffer.from(buffer)]: a fresh array holding a copy of the bytes
    that [b] shows (Node may carve the copy out of its allocation
    pool; no other [Buffer] overlaps it there, which is all that a
    fresh array says). *)
Definition from (b : Buffer) (st : Store) : Store * Completion Buffer :=
  (st ++ [bytes_of st b], Normal (mkBuffer (length st) 0 (blength b))).

(** [source.copy(target, targetStart, sourceStart)]: copies as much of
    [source] from [sourceStart] on as fits in [target] from
    [targetStart] on, and returns the number of bytes copied.  The
    source bytes are read before any byte is written (overlapping
    regions behave as with a temporary copy). *)
Definition copy (source target : Buffer) (targetStart sourceStart : Z)
    (st : Store) : Store * Completion Z :=
  if (targetStart <? 0)%Z then (st, Throw (RangeError "targetStart"))
  else if ((sourceStart <? 0) || (Z.of_nat (blength source) <? sourceStart))%Z
  then (st, Throw (RangeError "sourceStart"))
  else if ((Z.of_nat (blength target) <=? targetStart)
           || (Z.of_nat (blength source) <=? sourceStart))%Z
  then (st, Normal 0%Z)
  else
    let ts := Z.to_nat targetStart in
    let ss := Z.to_nat sourceStart in
    let nb := (blength source - ss) `min` (blength target - ts) in
    (write_at st target ts (take nb (drop ss (bytes_of st source))),
     Normal (Z.of_nat nb)).

(** [b.copyWithin(target, start, end)]. *)
Definition copyWithin (b : Buffer) (target start end_ : Z) (st : Store)
    : Store * Completion unit :=
  let len := blength b in
  let to := rel_index len target in
  let from := rel_index len start in
  let final := rel_index len end_ in
  let count := (final - from) `min` (len - to) in
  if decide (0 < count)
  then (write_at st b to (take count (drop from (bytes_of st b))), Normal tt)
  else (st, Normal tt).

(** Index of the first occurrence of [x] at or after position [i] of
    the enclosing array, [-1] when there is none. *)
Fixpoint index_from (i : Z) (x : byte) (l : list byte) : Z :=
  match l with
  | [] => (-1)%Z
  | y :: l' => if decide (y = x) then i else index_from (i + 1)%Z x l'
  end.

(** [b.indexOf(value)] for a one-byte value. *)
Definition indexOf (b : Buffer) (x : byte) (st : Store) : Store * Completion Z :=
  (st, Normal (index_from 0%Z x (bytes_of st b))).

(** *** Relations between two stores *)

(** Same arrays, of the same sizes: every view that was inside its
    array still is. *)
Definition same_shape (st st' : list (list byte)) : Prop :=
  length st' = length st ∧ ∀ a, length (backing st' a) = length (backing st a).

(** Only the array [a] may have changed. *)
Definition only_touches (a : nat) (st st' : list (list byte)) : Prop :=
  length st' = length st ∧ ∀ a', a' ≠ a → backing st' a' = backing st a'.

End Node.

(** ** dynBuf.ts *)

Module DynBufs.
Import Node.

Record DynBuf := mkDynBuf {
  data : Buffer;
  (* current amount of data in buffer *)
  length : Z
}.

(** The memory a call works on: the backing arrays and the fields of
    the [DynBuf] object [buf] that the three functions receive. *)
Record Mem := mkMem { heap : Store; buf : DynBuf }.

(** State and exception monad of the embedded functions. *)
Definition M (A : Type) : Type := Mem → Mem * Completion A.

#[global] Instance M_ret : MRet M := λ A a m, (m, Normal a).

#[global] Instance M_bind : MBind M := λ A B k c m,
  match c m with
  | (m', Normal a) => k a m'
  | (m', Throw e) => (m', Throw e)
  end.

(** A [Buffer] operation run on the heap. *)
Definition on_heap {A} (f : Store → Store * Completion A) : M A :=
  λ m, let '(st, r) := f (heap m) in (mkMem st (buf m), r).

Definition get_data : M Buffer := λ m, (m, Normal (data (buf m))).
Definition get_length : M Z := λ m, (m, Normal (length (buf m))).
Definition set_data (b : Buffer) : M unit :=
  λ m, (mkMem (heap m) (mkDynBuf b (length (buf m))), Normal tt).
Definition set_length (n : Z) : M unit :=
  λ m, (mkMem (heap m) (mkDynBuf (data (buf m)) n), Normal tt).

(** [while (cap < newLen) cap *= 2], at most [fuel] iterations. *)
Fixpoint double_until (fuel : nat) (cap newLen : Z) : Z :=
  match fuel with
  | O => cap
  | S fuel' =>
      if (cap <? newLen)%Z then double_until fuel' (cap * 2)%Z newLen else cap
  end.

(** The capacity computed by the growth path of [bufPush]: the loop
    starts from [max(capacity, 32)]; [newLen] iterations are more than
    it can take. *)
Definition grown_capacity (capacity newLen : Z) : Z :=
  double_until (Z.to_nat newLen) (Z.max capacity 32) newLen.

(** [bufPush] (dynBuf.ts, lines 13-30); [chunk] is its parameter
    [data]. *)
Definition bufPush (chunk : Buffer) : M unit :=
  len ← get_length ;
  old ← get_data ;
  let newLen := (len + Z.of_nat (blength chunk))%Z in
  (if (Z.of_nat (blength old) <? newLen)%Z then
     let cap := grown_capacity (Z.of_nat (blength old)) newLen in
     grownBuf ← on_heap (alloc cap) ;
     on_heap (copy old grownBuf 0 0) ;;
     set_data grownBuf
   else mret tt) ;;
  cur ← get_data ;
  at_ ← get_length ;
  on_heap (copy chunk cur at_ 0) ;;
  set_length newLen.

(** [bufPop] (dynBuf.ts, lines 38-43). *)
Definition bufPop (len : Z) : M unit :=
  cur ← get_data ;
  l ← get_length ;
  on_heap (copyWithin cur 0 len l) ;;
  set_length (l - len)%Z.

(** [cutMessage] (dynBuf.ts, lines 51-62). *)
Definition cutMessage : M (option Buffer) :=
  cur ← get_data ;
  l ← get_length ;
  delimIdx ← on_heap (indexOf (subarray cur 0 l) x0a) ;
  if (delimIdx <? 0)%Z then mret None
  else
    msg ← on_heap (from (subarray cur 0 (delimIdx + 1))) ;
    bufPop (delimIdx + 1) ;;
    mret (Some msg).

(** The second copy of the buffer code (dynBuf.ts, lines 70-88); its
    [bufPop] and [cutMessage] are the same as above. *)
Module Variant2.
Definition bufPush (chunk : Buffer) : M unit :=
  len ← get_length ;
  old ← get_data ;
  let newLen := (len + Z.of_nat (blength chunk))%Z in
  (if (Z.of_nat (blength old) <? newLen)%Z then
     let cap := grown_capacity (Z.of_nat (blength old)) newLen in
     grownBuf ← on_heap (alloc cap) ;
     on_heap (copy old grownBuf 0 0) ;;
     set_data grownBuf ;;
     set_length cap
   else mret tt) ;;
  cur ← get_data ;
  at_ ← get_length ;
  on_heap (copy chunk cur at_ 0) ;;
  set_length newLen.
End Variant2.

(** *** Observations on a memory *)

Definition capacity (m : Mem) : nat := blength (data (buf m)).

(** The valid region: the first [length] bytes of the storage. *)
Definition valid (m : Mem) : list byte :=
  take (Z.to_nat (length (buf m))) (bytes_of (heap m) (data (buf m))).

(** The storage is allocated and [0 <= length <= capacity]. *)
Definition wf (m : Mem) : Prop :=
  view_ok (heap m) (data (buf m))
  ∧ (0 ≤ length (buf m) ≤ Z.of_nat (capacity m))%Z.

(** A buffer as a connection creates it: [{ data: Buffer.alloc(cap0),
    length: 0 }] on an otherwise arbitrary heap. *)
Definition empty_buf (st : Store) (cap0 : nat) : Mem :=
  mkMem (st ++ [replicate cap0 x00]) (mkDynBuf (mkBuffer (List.length st) 0 cap0) 0).

(** A chunk delivered by the transport: a fresh [Buffer] holding [bs]. *)
Definition receive (bs : list byte) : M Buffer :=
  λ m, (mkMem (heap m ++ [bs]) (buf m),
        Normal (mkBuffer (List.length (heap m)) 0 (List.length bs))).

Definition push_bytes (bs : list byte) : M unit :=
  chunk ← receive bs ; bufPush chunk.

Fixpoint push_all (chunks : list (list byte)) : M unit :=
  match chunks with
  | [] => mret tt
  | c :: cs => push_bytes c ;; push_all cs
  end.

(** *** Draining the buffer *)

(** What the caller sees of a result of [cutMessage]: the bytes the
    returned [Buffer] shows when it is returned. *)
Definition observe (r : option Buffer) : M (option (list byte)) :=
  λ m, (m, Normal (bytes_of (heap m) <$> r)).

(** [n] successive calls of [cutMessage], with what each returned. *)
Fixpoint cut_many (n : nat) : M (list (option (list byte))) :=
  match n with
  | O => mret []
  | S n' =>
      r ← cutMessage ;
      seen ← observe r ;
      later ← cut_many n' ;
      mret (seen :: later)
  end.

(** A complete message: bytes without delimiter, then the delimiter. *)
Definition is_message (msg : list byte) : Prop :=
  ∃ body, msg = body ++ [x0a] ∧ x0a ∉ body.

Definition count_delims (stream : list byte) : nat :=
  List.length (filter (λ b, b = x0a) stream).

(** *** Sequences of operations *)

(** One operation of a caller that respects the precondition of
    [bufPop]: it appends a [Buffer] it holds, discards at most the
    valid bytes, or obtains a new [Buffer] (a chunk that arrived). *)
Inductive op_step : Mem → Mem → Prop :=
| step_push m chunk m' :
    view_ok (heap m) chunk →
    bufPush chunk m = (m', Normal tt) →
    op_step m m'
| step_pop m n m' :
    (0 ≤ n ≤ length (buf m))%Z →
    bufPop n m = (m', Normal tt) →
    op_step m m'
| step_receive m bs chunk m' :
    receive bs m = (m', Normal chunk) →
    op_step m m'.

(** One operation of an arbitrary caller: any argument, and the
    memory as the call leaves it, whether it returned or threw. *)
Inductive any_step : Mem → Mem → Prop :=
| any_push m chunk m' c : bufPush chunk m = (m', c) → any_step m m'
| any_pop m n m' c : bufPop n m = (m', c) → any_step m m'
| any_cut m m' c : cutMessage m = (m', c) → any_step m m'
| any_receive m bs m' c : receive bs m = (m', c) → any_step m m'.

(** *** Relations between two memories *)

(** From [m] to [m']: arrays are only added, the storage of the
    buffer is the old array or a new one, and every old array other
    than the storage of the buffer is as it was. *)
Definition frame (m m' : Mem) : Prop :=
  List.length (heap m) ≤ List.length (heap m')
  ∧ base (data (buf m')) < List.length (heap m')
  ∧ (base (data (buf m')) = base (data (buf m))
     ∨ List.length (heap m) ≤ base (data (buf m')))
  ∧ ∀ a, a < List.length (heap m) → a ≠ base (data (buf m)) →
         backing (heap m') a = backing (heap m) a.

(** The capacities a buffer created with capacity [cap0] can have. *)
Definition capacity_shape (cap0 : nat) (cap : nat) : Prop :=
  cap = cap0
  ∨ (32 ≤ cap
     ∧ ∃ k : nat, Z.of_nat cap = (Z.max (Z.of_nat cap0) 32 * 2 ^ Z.of_nat k)%Z).

End DynBufs.

(** ** The promise-based connection adapter *)

Module TcpConn.
Import Node.

(** State of a promise. *)
Inductive Promise (A : Type) :=
| Pending
| Fulfilled (value : A)
| Rejected (reason : JsError).
Arguments Pending {A}.
Arguments Fulfilled {A} value.
Arguments Rejected {A} reason.

(** [resolve]/[reject] settle a pending promise and do nothing to a
    settled one. *)
Definition settle {A} (outcome : Promise A) (p : Promise A) : Promise A :=
  match p with
  | Pending => outcome
  | _ => p
  end.

(** Calls made on the [net.Socket]. *)
Inductive SocketCall :=
| Resume
| Pause
| Write (data : list byte) (callback : nat)
| Destroy.

(** [TCPConn] without its [socket] field; [reader] holds the
    [resolve]/[reject] pair of the promise with that index. *)
Record TCPConn := mkConn {
  err : option JsError;
  ended : bool;
  reader : option nat
}.

(** A connection with everything its functions act on: the promises
    that [soRead] and [soWrite] returned, by order of creation, and the
    calls made on the socket so far. *)
Record World := mkWorld {
  conn : TCPConn;
  reads : list (Promise (list byte));
  writes : list (Promise unit);
  socket : list SocketCall
}.

Definition zero_length_error : JsError :=
  Error "Data length must be greater than 0".
Definition concurrent_read_error : JsError :=
  Error "Concurrent read operations not allowed".
Definition no_reader_error : JsError := Error "No reader available".

(** [soWrite] (lines 32-51).  It is an [async] function: its [throw]
    rejects the promise it returns.  The result is the index of that
    promise in [writes]. *)
Definition soWrite (data : list byte) (w : World) : World * nat :=
  let p := length (writes w) in
  if decide (length data = 0) then
    (mkWorld (conn w) (reads w) (writes w ++ [Rejected zero_length_error])
       (socket w), p)
  else
    match err (conn w) with
    | Some e =>
        (mkWorld (conn w) (reads w) (writes w ++ [Rejected e]) (socket w), p)
    | None =>
        (mkWorld (conn w) (reads w) (writes w ++ [Pending])
           (socket w ++ [Write data p]), p)
    end.

(** [soRead] (lines 60-78): throws, or returns the index in [reads] of
    the promise it created. *)
Definition soRead (w : World) : World * Completion nat :=
  match reader (conn w) with
  | Some _ => (w, Throw concurrent_read_error)
  | None =>
      let p := length (reads w) in
      match err (conn w) with
      | Some e =>
          (mkWorld (conn w) (reads w ++ [Rejected e]) (writes w) (socket w),
           Normal p)
      | None =>
          if ended (conn w) then
            (mkWorld (conn w) (reads w ++ [Fulfilled []]) (writes w) (socket w),
             Normal p)
          else
            (* resume the socket to start receiving data *)
            (mkWorld (mkConn (err (conn w)) (ended (conn w)) (Some p))
               (reads w ++ [Pending]) (writes w) (socket w ++ [Resume]),
             Normal p)
      end
  end.

(** [soInit] (lines 86-120): the connection it returns ... *)
Definition soInit : World := mkWorld (mkConn None false None) [] [] [].

(** ... and the three listeners it registers. *)
Definition on_data (data : list byte) (w : World) : World * Completion unit :=
  match reader (conn w) with
  | None => (w, Throw no_reader_error)
  | Some p =>
      (* pause the "data" event until the next read operation *)
      (mkWorld (mkConn (err (conn w)) (ended (conn w)) None)
         (alter (settle (Fulfilled data)) p (reads w)) (writes w)
         (socket w ++ [Pause]),
       Normal tt)
  end.

Definition on_end (w : World) : World * Completion unit :=
  match reader (conn w) with
  | Some p =>
      (mkWorld (mkConn (err (conn w)) true None)
         (alter (settle (Fulfilled [])) p (reads w)) (writes w) (socket w),
       Normal tt)
  | None =>
      (mkWorld (mkConn (err (conn w)) true None) (reads w) (writes w) (socket w),
       Normal tt)
  end.

Definition on_error (e : JsError) (w : World) : World * Completion unit :=
  match reader (conn w) with
  | Some p =>
      (mkWorld (mkConn (Some e) (ended (conn w)) None)
         (alter (settle (Rejected e)) p (reads w)) (writes w) (socket w),
       Normal tt)
  | None =>
      (mkWorld (mkConn (Some e) (ended (conn w)) None) (reads w) (writes w)
         (socket w),
       Normal tt)
  end.

(** The callback that [soWrite] passes to [socket.write], for the
    promise with index [p]. *)
Definition on_written (p : nat) (failure : option JsError) (w : World)
    : World * Completion unit :=
  let outcome :=
    match failure with
    | Some e => Rejected e
    | None => Fulfilled tt
    end in
  (mkWorld (conn w) (reads w) (alter (settle outcome) p (writes w)) (socket w),
   Normal tt).

(** An event on the socket, that is, the callback it runs. *)
Inductive Event :=
| EvData (data : list byte)
| EvEnd
| EvError (e : JsError)
| EvWritten (p : nat) (failure : option JsError).

Definition handle (ev : Event) (w : World) : World * Completion unit :=
  match ev with
  | EvData data => on_data data w
  | EvEnd => on_end w
  | EvError e => on_error e w
  | EvWritten p failure => on_written p failure w
  end.

(** What can happen to a connection: a call of one of the two
    functions, or an event.  A call or a listener that throws leaves
    the connection as it was when it threw. *)
Inductive Action :=
| CallRead
| CallWrite (data : list byte)
| Ev (ev : Event).

Definition act (a : Action) (w : World) : World :=
  match a with
  | CallRead => (soRead w).1
  | CallWrite data => (soWrite data w).1
  | Ev ev => (handle ev w).1
  end.

(** The connection after a sequence of actions, oldest first. *)
Definition run (trace : list Action) (w : World) : World :=
  foldl (λ w a, act a w) w trace.

(** *** An invariant of the connection *)

(** While a read is outstanding its promise is pending and nothing
    is latched. *)
Definition reader_pending (w : World) : Prop :=
  ∀ p, reader (conn w) = Some p →
       reads w !! p = Some Pending
       ∧ err (conn w) = None
       ∧ ended (conn w) = false.

(** *** [serveClient] and [newConn] *)

(** Where the [async] function [serveClient] stands. *)
Inductive Pc :=
| AwaitRead (p : nat)
| AwaitWrite (p : nat)
| Returned
| Failed (e : JsError)
| OutOfFuel.

Record Server := mkServer { world : World; pc : Pc }.

(** The body of the loop after [await soRead(conn)] produced [data];
    [again] is the next iteration. *)
Definition after_read (again : World → Server) (data : list byte) (w : World)
    : Server :=
  if decide (length data = 0) then mkServer w Returned
  else
    let '(w', p) := soWrite data w in
    match writes w' !! p with
    | Some (Fulfilled _) => again w'
    | Some (Rejected e) => mkServer w' (Failed e)
    | _ => mkServer w' (AwaitWrite p)
    end.

(** [while (true) { ... }] (lines 148-159), run until the function
    awaits a pending promise, returns or throws. *)
Fixpoint serve_loop (fuel : nat) (w : World) : Server :=
  match fuel with
  | O => mkServer w OutOfFuel
  | S fuel' =>
      match soRead w with
      | (w', Throw e) => mkServer w' (Failed e)
      | (w', Normal p) =>
          match reads w' !! p with
          | Some (Fulfilled data) => after_read (serve_loop fuel') data w'
          | Some (Rejected e) => mkServer w' (Failed e)
          | _ => mkServer w' (AwaitRead p)
          end
      end
  end.

(** Iterations allowed between two suspensions; one is all the loop
    ever runs there, since [soRead] fulfils at once only with the
    empty buffer and [soWrite] never fulfils at once. *)
Definition fuel : nat := 2.

(** [serveClient(socket)] (lines 146-160) up to its first suspension.
    This is the server that listens on port 8080; the end-to-end tests
    of the repository talk to a server on port 8000. *)
Definition serveClient : Server := serve_loop fuel soInit.

(** The function goes on when the promise it awaits is settled. *)
Definition resume (s : Server) : Server :=
  match pc s with
  | AwaitRead p =>
      match reads (world s) !! p with
      | Some (Fulfilled data) => after_read (serve_loop fuel) data (world s)
      | Some (Rejected e) => mkServer (world s) (Failed e)
      | _ => s
      end
  | AwaitWrite p =>
      match writes (world s) !! p with
      | Some (Fulfilled _) => serve_loop fuel (world s)
      | Some (Rejected e) => mkServer (world s) (Failed e)
      | _ => s
      end
  | _ => s
  end.

#[global] Instance SocketCall_eq_dec : EqDecision SocketCall.
Proof. solve_decision. Defined.

(** The [finally] of [newConn] (lines 134-137): once [serveClient] has
    returned or thrown, the socket is destroyed. *)
Definition finish (s : Server) : Server :=
  match pc s with
  | Returned | Failed _ =>
      if decide (Destroy ∈ socket (world s)) then s
      else mkServer (mkWorld (conn (world s)) (reads (world s))
                       (writes (world s)) (socket (world s) ++ [Destroy]))
             (pc s)
  | _ => s
  end.

(** [newConn(socket)] up to the first suspension. *)
Definition newConn : Server := finish serveClient.

(** One event while the connection is served: the listener runs, then
    [serveClient] goes on if the promise it awaits was settled. *)
Definition deliver (ev : Event) (s : Server) : Server :=
  finish (resume (mkServer (handle ev (world s)).1 (pc s))).

(** The served connection after a sequence of events, oldest first. *)
Definition serve (events : list Event) : Server :=
  foldl (λ s ev, deliver ev s) newConn events.

(** What holds of a served connection between two events. *)
Definition serving (s : Server) : Prop :=
  match pc s with
  | AwaitRead p =>
      reader (conn (world s)) = Some p
      ∧ reads (world s) !! p = Some Pending
      ∧ err (conn (world s)) = None
      ∧ ended (conn (world s)) = false
      ∧ Destroy ∉ socket (world s)
  | AwaitWrite p =>
      reader (conn (world s)) = None
      ∧ writes (world s) !! p ≠ None
      ∧ Destroy ∉ socket (world s)
  | Returned | Failed _ => True
  | OutOfFuel => False
  end.

End TcpConn.

(** ** Concrete buffers and connections used in closed instances *)

Module Samples.
Import Node DynBufs TcpConn.

Definition nl : byte := x0a.
Definition two_lines : list byte := [x61; nl; x62; nl].

(** The line [hello] arriving in three chunks, the last one holding
    the delimiter alone. *)
Definition hello_body : list byte := [x68; x65; x6c; x6c; x6f].
Definition quiet_chunks : list (list byte) := [[x68; x65]].
Definition closing_chunks : list (list byte) := [[x6c; x6c; x6f]; [nl]].

(** Three lines in one chunk: [hell], [1234], [quit]. *)
Definition pipelined : list byte :=
  [x68; x65; x6c; x6c; nl; x31; x32; x33; x34; nl; x71; x75; x69; x74; nl].

(** The buffer after [two_lines] was appended and both lines were cut:
    nothing is valid, and the storage still holds the second line. *)
Definition drained : Mem :=
  (cut_many 2 (push_all [two_lines] (empty_buf [] 0)).1).1.

(** A buffer holding [two_lines], the memory after the first line
    was cut, and the memory after three more bytes were pushed and
    one was popped. *)
Definition holding_two_lines : Mem :=
  (push_all [two_lines] (empty_buf [] 0)).1.
Definition after_first_cut : Mem := (cutMessage holding_two_lines).1.
Definition first_line : Buffer := mkBuffer 3 0 2.
Definition after_more_traffic : Mem :=
  (bufPop 1 (push_bytes [x7a; x7a; x7a] after_first_cut).1).1.

(** An empty buffer with room for 40 bytes, and the memory after 41
    bytes arrived and were pushed. *)
Definition forty : Mem := empty_buf [] 40.
Definition forty_grown : Mem := (push_bytes (replicate 41 x61) forty).1.

(** Errors and lines for the connection. *)
Definition reset : JsError := Error "read ECONNRESET".
Definition epipe : JsError := Error "write EPIPE".
Definition quit_line : list byte := [x71; x75; x69; x74; x0a].
Definition hello_line : list byte := [x48; x65; x6c; x6c; x6f; x0a].
Definition bye_line : list byte := [x42; x79; x65; x2e; x0a].
Definition echo_prefix : list byte := [x45; x63; x68; x6f; x3a; x20].

(** A connection with a read outstanding, and one with [reset]
    latched. *)
Definition reading : World := run [CallRead] soInit.
Definition broken : World := run [Ev (EvError reset)] soInit.

End Samples.

(** ** Using the buffer and the connection: loops and observations *)

Module Framing.
Import Node DynBufs.

(** [while ((msg = cutMessage(buf)) !== null) ...]: the messages
    returned before the first [null], at most [fuel] of them. *)
Fixpoint cut_until_null (fuel : nat) : M (list (list byte)) :=
  match fuel with
  | O => mret []
  | S fuel' =>
      r ← cutMessage ;
      match r with
      | None => mret []
      | Some msg =>
          seen ← (λ m, (m, Normal (bytes_of (heap m) msg))) ;
          later ← cut_until_null fuel' ;
          mret (seen :: later)
      end
  end.

(** Every message takes at least one valid byte, so [length + 1] calls
    reach the [null]. *)
Definition drain_all : M (list (list byte)) :=
  λ m, cut_until_null (S (Z.to_nat (length (buf m)))) m.

(** A caller that drains the buffer after every chunk it appends. *)
Fixpoint feed (chunks : list (list byte)) : M (list (list byte)) :=
  match chunks with
  | [] => mret []
  | c :: cs =>
      push_bytes c ;;
      now ← drain_all ;
      later ← feed cs ;
      mret (now ++ later)
  end.

(** A caller that appends all the chunks and drains once. *)
Definition feed_at_once (chunks : list (list byte)) : M (list (list byte)) :=
  push_all chunks ;; drain_all.

End Framing.

Module TcpConnObs.
Import Node TcpConn.

(** How often the socket was resumed and paused. *)
Definition resumes (log : list SocketCall) : nat :=
  length (filter (λ c, c = Resume) log).
Definition pauses (log : list SocketCall) : nat :=
  length (filter (λ c, c = Pause) log).

(** The data passed to [socket.write], oldest first. *)
Definition written (log : list SocketCall) : list (list byte) :=
  omap (λ c, match c with Write data _ => Some data | _ => None end) log.

(** The chunks that the data events of a sequence carry. *)
Definition payloads (events : list Event) : list (list byte) :=
  omap (λ ev, match ev with EvData data => Some data | _ => None end) events.

(** [serveClient] has returned or thrown. *)
Definition settled (p : Pc) : Prop :=
  match p with
  | Returned | Failed _ => True
  | _ => False
  end.

(** Every read promise that is still pending is the one whose
    callbacks [reader] holds. *)
Definition no_orphan_read (w : World) : Prop :=
  ∀ p, reads w !! p = Some Pending → reader (conn w) = Some p.

(** The socket is resumed once more than it was paused while a read is
    outstanding, and as often as it was paused when a read can still be
    requested. *)
Definition flow_balanced (w : World) : Prop :=
  match reader (conn w) with
  | Some _ => resumes (socket w) = S (pauses (socket w))
  | None =>
      pauses (socket w) ≤ resumes (socket w) ≤ S (pauses (socket w))
      ∧ (err (conn w) = None → ended (conn w) = false →
         resumes (socket w) = pauses (socket w))
  end.

(** Between two events of a served connection: the promise that
    [serveClient] awaits is pending, every other promise is settled,
    and the socket is destroyed, as the last call made on it, exactly
    when [serveClient] is done. *)
Definition quiescent (s : Server) : Prop :=
  (∀ q, writes (world s) !! q = Some Pending → pc s = AwaitWrite q)
  ∧ (∀ p, reads (world s) !! p = Some Pending → pc s = AwaitRead p)
  ∧ match pc s with
    | AwaitRead p =>
        reads (world s) !! p = Some Pending ∧ Destroy ∉ socket (world s)
    | AwaitWrite q =>
        writes (world s) !! q = Some Pending ∧ Destroy ∉ socket (world s)
    | Returned | Failed _ =>
        reader (conn (world s)) = None
        ∧ ∃ calls, socket (world s) = calls ++ [Destroy] ∧ Destroy ∉ calls
    | OutOfFuel => False
    end.

(** Actions other than the three events that settle a read. *)
Definition no_read_event (a : Action) : Prop :=
  match a with
  | Ev (EvData _) | Ev EvEnd | Ev (EvError _) => False
  | _ => True
  end.

(** The chunk that [serveClient] passes to [soWrite] when an event
    reaches it: the data of a read it awaits, unless empty. *)
Definition echo_of (s : Server) (ev : Event) : list (list byte) :=
  match pc s, ev with
  | AwaitRead _, EvData data => if decide (data = []) then [] else [data]
  | _, _ => []
  end.

End TcpConnObs.

(** ** More concrete buffers and connections *)

(** ** The callback-based echo server *)

Module CallbackServer.
Import Node.

(** Calls made on the socket. *)
Inductive SocketCall :=
| Write (data : list byte)
| End.

#[global] Instance callback_call_eq_dec : EqDecision SocketCall.
Proof. solve_decision. Defined.

(** Events the two listeners of [newConn] are registered for. *)
Inductive Event :=
| EvData (data : list byte)
| EvEnd.

Definition q : byte := x71.

(** [data.includes(value)] for a one-byte value. *)
Definition includes (data : list byte) (x : byte) : bool :=
  negb (index_from 0 x data =? -1)%Z.

(** The "data" listener (lines 9-17): echo, then close if the chunk
    holds a [q]. *)
Definition on_data (data : list byte) (socket : list SocketCall)
    : list SocketCall :=
  let socket := socket ++ [Write data] in
  if includes data q then socket ++ [End] else socket.

(** The "end" listener (lines 5-8) only logs. *)
Definition on_end (socket : list SocketCall) : list SocketCall := socket.

Definition handle (ev : Event) (socket : list SocketCall) : list SocketCall :=
  match ev with
  | EvData data => on_data data socket
  | EvEnd => on_end socket
  end.

(** [newConn(socket)] (lines 3-18) registers the listeners and calls
    nothing on the socket. *)
Definition newConn : list SocketCall := [].

(** The calls made on the socket after a sequence of events, oldest
    first. *)
Definition serve (events : list Event) : list SocketCall :=
  foldl (λ socket ev, handle ev socket) newConn events.

(** The data passed to [socket.write], the number of calls of
    [socket.end], and the chunks received. *)
Definition written (log : list SocketCall) : list (list byte) :=
  omap (λ c, match c with Write data => Some data | End => None end) log.
Definition ends (log : list SocketCall) : nat :=
  length (filter (λ c, c = End) log).
Definition payloads (events : list Event) : list (list byte) :=
  omap (λ ev, match ev with EvData data => Some data | EvEnd => None end)
    events.

End CallbackServer.

Module MoreSamples.
Import Node DynBufs TcpConn Samples.

(** An empty buffer without capacity beside a one-byte chunk that has
    arrived, and that chunk. *)
Definition one_byte_arrived : Mem := (receive [x61] (empty_buf [] 0)).1.
Definition the_byte : Buffer := mkBuffer 1 0 1.

(** The first four bytes of the storage of [holding_two_lines]: a
    [Buffer] on the array the buffer itself writes to. *)
Definition own_storage : Buffer := mkBuffer 2 0 4.

(** A line cut into chunks in the middle of a word and in front of its
    delimiter. *)
Definition ragged_chunks : list (list byte) :=
  [[x68; x65]; [x6c; x6c; nl; x31; x32]; [x33; x34]; [nl; x71]].

End MoreSamples.

(** ** Facts about views and the [Buffer] operations *)

Module NodeFacts.
Import Node.

Section Views.
Context (st : list (list byte)).

Lemma backing_length_ok (b : Buffer) :
  view_ok st b → st !! base b = Some (backing st (base b)).
Proof.
  intros [Hlt _]. unfold backing.
  destruct (lookup_lt_is_Some_2 st (base b) Hlt) as [arr ->]. done.
Qed.

Lemma length_bytes_of (b : Buffer) :
  view_ok st b → length (bytes_of st b) = blength b.
Proof.
  intros [_ Hle]. unfold bytes_of.
  rewrite length_take, length_drop. lia.
Qed.

Lemma bytes_of_app (b : Buffer) (more : list (list byte)) :
  base b < length st → bytes_of (st ++ more) b = bytes_of st b.
Proof.
  intros Hlt. unfold bytes_of, backing. by rewrite lookup_app_l.
Qed.

Lemma view_ok_app (b : Buffer) (more : list (list byte)) :
  view_ok st b → view_ok (st ++ more) b.
Proof.
  intros [Hlt Hle]. split.
  - rewrite length_app. lia.
  - unfold backing in *. by rewrite lookup_app_l.
Qed.

Lemma bytes_of_fresh (arr : list byte) (n : nat) :
  bytes_of (st ++ [arr]) (mkBuffer (length st) 0 n) = take n arr.
Proof.
  unfold bytes_of, backing. simpl.
  rewrite lookup_app_r by lia. by rewrite Nat.sub_diag.
Qed.

Lemma view_ok_fresh (arr : list byte) (n : nat) :
  n ≤ length arr → view_ok (st ++ [arr]) (mkBuffer (length st) 0 n).
Proof.
  intros Hn. split; simpl.
  - rewrite length_app. simpl. lia.
  - unfold backing. rewrite lookup_app_r by lia.
    rewrite Nat.sub_diag. simpl. lia.
Qed.

Lemma length_write_at (b : Buffer) pos bs :
  length (write_at st b pos bs) = length st.
Proof. apply length_alter. Qed.

Lemma backing_write_at_other (b : Buffer) pos bs (a : nat) :
  a ≠ base b → backing (write_at st b pos bs) a = backing st a.
Proof.
  intros Hne. unfold backing, write_at.
  by rewrite list_lookup_alter_ne.
Qed.

Lemma bytes_of_write_at_other (b b' : Buffer) pos bs :
  base b' ≠ base b → bytes_of (write_at st b pos bs) b' = bytes_of st b'.
Proof.
  intros Hne. unfold bytes_of. by rewrite backing_write_at_other.
Qed.

Lemma backing_write_at_same (b : Buffer) pos bs :
  backing (write_at st b pos bs) (base b)
  = match st !! base b with
    | Some arr => splice (byteOffset b + pos) bs arr
    | None => []
    end.
Proof.
  unfold backing, write_at. rewrite list_lookup_alter_eq.
  by destruct (st !! base b).
Qed.

Lemma length_splice i bs (arr : list byte) :
  i + length bs ≤ length arr → length (splice i bs arr) = length arr.
Proof.
  intros Hle. unfold splice.
  rewrite !length_app, length_take, length_drop. lia.
Qed.

Lemma length_backing_write_at (b : Buffer) pos bs (a : nat) :
  view_ok st b → pos + length bs ≤ blength b →
  length (backing (write_at st b pos bs) a) = length (backing st a).
Proof.
  intros Hok Hfit. destruct (decide (a = base b)) as [->|Hne].
  - rewrite backing_write_at_same, (backing_length_ok b Hok).
    apply length_splice. destruct Hok. lia.
  - by rewrite backing_write_at_other.
Qed.

Lemma view_ok_write_at (b b' : Buffer) pos bs :
  view_ok st b → pos + length bs ≤ blength b →
  view_ok st b' → view_ok (write_at st b pos bs) b'.
Proof.
  intros Hok Hfit [Hlt Hle]. split.
  - by rewrite length_write_at.
  - by rewrite length_backing_write_at.
Qed.

(** Reading back the view that was written. *)
Lemma bytes_of_write_at_same (b : Buffer) pos bs :
  view_ok st b → pos + length bs ≤ blength b →
  bytes_of (write_at st b pos bs) b
  = take pos (bytes_of st b) ++ bs ++ drop (pos + length bs) (bytes_of st b).
Proof.
  intros Hok Hfit. pose proof Hok as [Hlt Hle].
  unfold bytes_of. rewrite backing_write_at_same, (backing_length_ok b Hok).
  set (arr := backing st (base b)) in *.
  set (o := byteOffset b) in *. set (n := blength b) in *.
  unfold splice.
  apply list_eq. intros i.
  destruct (decide (i < n)) as [Hi|Hi].
  2:{ rewrite lookup_take_ge by lia. symmetry. apply lookup_ge_None.
      rewrite !length_app, !length_take, !length_drop, length_take, length_drop. lia. }
  rewrite lookup_take_lt, lookup_drop by lia.
  destruct (decide (i < pos)) as [Hp|Hp].
  { rewrite lookup_app_l by (rewrite length_take; lia).
    rewrite lookup_take_lt by lia.
    rewrite lookup_app_l by (rewrite !length_take, length_drop; lia).
    rewrite !lookup_take_lt, lookup_drop by lia. done. }
  rewrite lookup_app_r by (rewrite length_take; lia).
  rewrite length_take, Nat.min_l by lia.
  rewrite (lookup_app_r (take pos _)) by (rewrite !length_take, length_drop; lia).
  rewrite !length_take, length_drop.
  replace (pos `min` (n `min` (length arr - o))) with pos by lia.
  replace (o + i - (o + pos)) with (i - pos) by lia.
  destruct (decide (i - pos < length bs)) as [Hb|Hb].
  { by rewrite !lookup_app_l by lia. }
  rewrite !lookup_app_r by lia.
  rewrite !lookup_drop, lookup_take_lt by lia.
  rewrite lookup_drop. f_equal. lia.
Qed.
End Views.

(** *** What one [Buffer] operation does to the store *)

Lemma same_shape_refl st : same_shape st st.
Proof. by split. Qed.

Lemma only_touches_refl a st : only_touches a st st.
Proof. by split. Qed.

Lemma same_shape_view_ok st st' (b : Buffer) :
  same_shape st st' → view_ok st b → view_ok st' b.
Proof. intros [Hl Hb] [Hlt Hle]. split; [lia | by rewrite Hb]. Qed.

Lemma only_touches_bytes_of a st st' (b : Buffer) :
  only_touches a st st' → base b ≠ a → bytes_of st' b = bytes_of st b.
Proof. intros [_ H] Hne. unfold bytes_of. by rewrite H. Qed.

Lemma write_at_only_touches st (b : Buffer) pos bs :
  only_touches (base b) st (write_at st b pos bs).
Proof.
  split; [apply length_write_at|].
  intros a' Hne. by apply backing_write_at_other.
Qed.

Lemma write_at_same_shape st (b : Buffer) pos bs :
  view_ok st b → pos + length bs ≤ blength b →
  same_shape st (write_at st b pos bs).
Proof.
  intros Hok Hfit. split; [apply length_write_at|].
  intros a. by apply length_backing_write_at.
Qed.

(** [copy] and [copyWithin] write to the target's array only, whatever
    their arguments and whether they throw or not. *)
Lemma copy_only_touches st (src tgt : Buffer) ts ss st' c :
  copy src tgt ts ss st = (st', c) → only_touches (base tgt) st st'.
Proof.
  unfold copy. intros H.
  repeat case_match; simplify_eq;
    auto using only_touches_refl, write_at_only_touches.
Qed.

Lemma copyWithin_only_touches st (b : Buffer) t s e st' c :
  copyWithin b t s e st = (st', c) → only_touches (base b) st st'.
Proof.
  unfold copyWithin. intros H.
  case_decide; simplify_eq;
    auto using only_touches_refl, write_at_only_touches.
Qed.

Lemma bytes_of_nil st (b : Buffer) : blength b = 0 → bytes_of st b = [].
Proof. intros H. unfold bytes_of. by rewrite H. Qed.

(** [source.copy(target, ts, 0)] when the whole source fits. *)
Lemma copy_fits st (src tgt : Buffer) (ts : Z) :
  view_ok st src → view_ok st tgt →
  (0 ≤ ts)%Z → (ts + Z.of_nat (blength src) ≤ Z.of_nat (blength tgt))%Z →
  ∃ st' n,
    copy src tgt ts 0 st = (st', Normal n)
    ∧ same_shape st st'
    ∧ only_touches (base tgt) st st'
    ∧ bytes_of st' tgt
      = take (Z.to_nat ts) (bytes_of st tgt) ++ bytes_of st src
        ++ drop (Z.to_nat ts + blength src) (bytes_of st tgt).
Proof.
  intros Hsrc Htgt Hts Hfit. unfold copy.
  destruct (Z.ltb_spec ts 0) as [?|_]; [lia|].
  destruct (Z.ltb_spec 0 0) as [?|_]; [lia|].
  destruct (Z.ltb_spec (Z.of_nat (blength src)) 0) as [?|_]; [lia|].
  simpl orb at 1. cbv iota.
  destruct (Z.leb_spec (Z.of_nat (blength tgt)) ts) as [Hfull|Hroom];
    [|destruct (Z.leb_spec (Z.of_nat (blength src)) 0) as [Hempty|Hsome]];
    simpl orb; cbv iota.
  - exists st, 0%Z. split_and!; auto using same_shape_refl, only_touches_refl.
    rewrite (bytes_of_nil st src) by lia. simpl.
    replace (Z.to_nat ts + blength src) with (Z.to_nat ts) by lia.
    by rewrite take_drop.
  - exists st, 0%Z. split_and!; auto using same_shape_refl, only_touches_refl.
    rewrite (bytes_of_nil st src) by lia. simpl.
    replace (Z.to_nat ts + blength src) with (Z.to_nat ts) by lia.
    by rewrite take_drop.
  - pose proof (length_bytes_of st src Hsrc) as Hlen.
    change (Z.to_nat 0) with 0. rewrite drop_0, Nat.sub_0_r.
    rewrite Nat.min_l by lia.
    rewrite take_ge by lia.
    eexists _, _. split; [reflexivity|].
    split_and!.
    + apply write_at_same_shape; [done | lia].
    + apply write_at_only_touches.
    + rewrite bytes_of_write_at_same by (done || lia). by rewrite Hlen.
Qed.

(** [b.copyWithin(0, n, l)] moves the bytes [n .. l) to the front and
    keeps the size of the array. *)
Lemma copyWithin_front st (b : Buffer) (n l : Z) :
  view_ok st b → (0 ≤ n ≤ l)%Z → (l ≤ Z.of_nat (blength b))%Z →
  ∃ st',
    copyWithin b 0 n l st = (st', Normal tt)
    ∧ same_shape st st'
    ∧ only_touches (base b) st st'
    ∧ take (Z.to_nat (l - n)) (bytes_of st' b)
      = drop (Z.to_nat n) (take (Z.to_nat l) (bytes_of st b)).
Proof.
  intros Hok Hn Hl. unfold copyWithin.
  pose proof (length_bytes_of st b Hok) as Hlen.
  assert (rel_index (blength b) 0 = 0) as -> by (unfold rel_index; simpl; lia).
  assert (rel_index (blength b) n = Z.to_nat n) as ->.
  { unfold rel_index. destruct (Z.ltb_spec n 0); lia. }
  assert (rel_index (blength b) l = Z.to_nat l) as ->.
  { unfold rel_index. destruct (Z.ltb_spec l 0); lia. }
  rewrite Nat.sub_0_r.
  replace ((Z.to_nat l - Z.to_nat n) `min` blength b)
    with (Z.to_nat (l - n)) by lia.
  case_decide as Hcount.
  - eexists. split; [reflexivity|]. split_and!.
    + apply write_at_same_shape; [done|]. rewrite length_take, length_drop. lia.
    + apply write_at_only_touches.
    + rewrite bytes_of_write_at_same;
        [|done|rewrite length_take, length_drop; lia].
      simpl. rewrite take_app_le by (rewrite length_take, length_drop; lia).
      rewrite take_take, Nat.min_id.
      rewrite take_drop_commute. f_equal. f_equal. lia.
  - exists st. split_and!; auto using same_shape_refl, only_touches_refl.
    replace (Z.to_nat (l - n)) with 0 by lia. simpl.
    symmetry. apply drop_ge. rewrite length_take. lia.
Qed.

(** [subarray(0, e)] shows the first [e] bytes. *)
Lemma bytes_of_subarray_front st (b : Buffer) (e : Z) :
  (0 ≤ e)%Z →
  bytes_of st (subarray b 0 e) = take (Z.to_nat e) (bytes_of st b).
Proof.
  intros He. unfold subarray, bytes_of. simpl.
  assert (rel_index (blength b) 0 = 0) as -> by (unfold rel_index; simpl; lia).
  assert (rel_index (blength b) e = Z.to_nat e `min` blength b) as ->.
  { unfold rel_index. destruct (Z.ltb_spec e 0) as [?|_]; lia. }
  rewrite Nat.add_0_r, Nat.sub_0_r, take_take. done.
Qed.

Lemma blength_subarray_front (b : Buffer) (e : Z) :
  (0 ≤ e ≤ Z.of_nat (blength b))%Z → blength (subarray b 0 e) = Z.to_nat e.
Proof.
  intros He. unfold subarray, rel_index. simpl.
  destruct (Z.ltb_spec e 0) as [?|_]; lia.
Qed.

(** *** [indexOf] *)

Lemma index_from_absent i x l : x ∉ l → index_from i x l = (-1)%Z.
Proof.
  revert i. induction l as [|y l IH]; intros i Hx; simpl; [done|].
  apply not_elem_of_cons in Hx as [Hne Hx].
  case_decide; [congruence|]. by apply IH.
Qed.

Lemma index_from_first i x body rest :
  x ∉ body → index_from i x (body ++ x :: rest) = (i + Z.of_nat (length body))%Z.
Proof.
  revert i. induction body as [|y body IH]; intros i Hx; simpl.
  - case_decide; [lia|done].
  - apply not_elem_of_cons in Hx as [Hne Hx].
    case_decide; [congruence|]. rewrite IH by done. lia.
Qed.

Lemma index_from_range i x l :
  index_from i x l = (-1)%Z
  ∨ (i ≤ index_from i x l < i + Z.of_nat (length l))%Z.
Proof.
  revert i. induction l as [|y l IH]; intros i; simpl; [by left|].
  case_decide; [right; lia|].
  destruct (IH (i + 1)%Z) as [->|?]; [by left|right; lia].
Qed.

(** A found index splits the bytes around the first delimiter. *)
Lemma index_from_found x l (r : Z)
    (Hr : index_from 0 x l = r) (Hpos : (0 ≤ r)%Z) :
  ∃ body rest, l = body ++ x :: rest ∧ (x ∉ body) ∧ r = Z.of_nat (length body).
Proof.
  destruct (decide (x ∈ l)) as [Hin|Hnot].
  - apply list_elem_of_split_l in Hin as (body & rest & -> & Hbody).
    exists body, rest. split_and!; [done..|].
    rewrite index_from_first in Hr by done. lia.
  - rewrite index_from_absent in Hr by done. lia.
Qed.

End NodeFacts.

(** ** Facts about the growable buffer *)

Module DynBufFacts.
Import Node NodeFacts DynBufs.

(** *** The doubling loop *)

Lemma double_until_exits fuel cap newLen :
  (1 ≤ cap)%Z → (newLen ≤ cap + Z.of_nat fuel)%Z →
  (newLen ≤ double_until fuel cap newLen)%Z.
Proof.
  revert cap. induction fuel as [|fuel IH]; intros cap Hcap Hfuel; simpl.
  - lia.
  - destruct (Z.ltb_spec cap newLen); [apply IH|]; lia.
Qed.

Lemma double_until_pow2 fuel cap newLen :
  ∃ k : nat, double_until fuel cap newLen = (cap * 2 ^ Z.of_nat k)%Z.
Proof.
  revert cap. induction fuel as [|fuel IH]; intros cap; simpl.
  - exists 0. simpl. lia.
  - destruct (Z.ltb_spec cap newLen).
    + destruct (IH (cap * 2)%Z) as [k ->]. exists (S k).
      rewrite Nat2Z.inj_succ, Z.pow_succ_r by lia. lia.
    + exists 0. simpl. lia.
Qed.

Lemma double_until_mono fuel cap newLen :
  (0 ≤ cap)%Z → (cap ≤ double_until fuel cap newLen)%Z.
Proof.
  revert cap. induction fuel as [|fuel IH]; intros cap Hcap; simpl; [lia|].
  destruct (Z.ltb_spec cap newLen); [|lia].
  specialize (IH (cap * 2)%Z). lia.
Qed.

(** The loop stops at the first doubling that reaches [newLen]. *)
Lemma double_until_tight fuel cap newLen :
  (1 ≤ cap)%Z → (cap < newLen)%Z →
  (double_until fuel cap newLen < 2 * newLen)%Z.
Proof.
  revert cap. induction fuel as [|fuel IH]; intros cap Hcap Hlt; simpl; [lia|].
  destruct (Z.ltb_spec cap newLen); [|lia].
  destruct (Z.lt_ge_cases (cap * 2) newLen) as [Hmore|Hdone].
  - apply IH; lia.
  - destruct fuel; simpl; [lia|].
    destruct (Z.ltb_spec (cap * 2) newLen); lia.
Qed.

Lemma grown_capacity_enough c newLen :
  (newLen ≤ grown_capacity c newLen)%Z.
Proof.
  unfold grown_capacity.
  destruct (Z.le_gt_cases newLen 0).
  - pose proof (double_until_mono (Z.to_nat newLen) (Z.max c 32) newLen). lia.
  - apply double_until_exits; lia.
Qed.

Lemma grown_capacity_ge c newLen : (Z.max c 32 ≤ grown_capacity c newLen)%Z.
Proof. apply double_until_mono. lia. Qed.

Lemma grown_capacity_pow2 c newLen :
  ∃ k : nat, grown_capacity c newLen = (Z.max c 32 * 2 ^ Z.of_nat k)%Z.
Proof. apply double_until_pow2. Qed.

(** *** Running the monad *)

Ltac run :=
  unfold mbind, mret, M_bind, M_ret, on_heap,
    get_data, get_length, set_data, set_length; simpl.

Lemma valid_length m : wf m → List.length (valid m) = Z.to_nat (length (buf m)).
Proof.
  intros [Hok Hlen]. unfold valid, capacity in *.
  rewrite length_take, length_bytes_of by done. lia.
Qed.

Lemma take_written (pre c rest : list byte) n :
  List.length pre = n → take (n + List.length c) (pre ++ c ++ rest) = pre ++ c.
Proof.
  intros Hn. rewrite app_assoc. apply take_app_length'.
  rewrite length_app. lia.
Qed.

(** [bufPush] on a well-formed buffer: it returns, the valid bytes
    are the old ones followed by the chunk, and the capacity is the
    old one or the grown one. *)
Lemma bufPush_spec m chunk :
  wf m → view_ok (heap m) chunk →
  let newLen := (length (buf m) + Z.of_nat (blength chunk))%Z in
  ∃ m',
    bufPush chunk m = (m', Normal tt)
    ∧ wf m'
    ∧ length (buf m') = newLen
    ∧ valid m' = valid m ++ bytes_of (heap m) chunk
    ∧ Z.of_nat (capacity m')
      = (if (Z.of_nat (capacity m) <? newLen)%Z
         then grown_capacity (Z.of_nat (capacity m)) newLen
         else Z.of_nat (capacity m))
    ∧ (∀ b, view_ok (heap m) b → view_ok (heap m') b).
Proof.
  intros [Hdata Hlen] Hchunk newLen. unfold capacity in *.
  destruct m as [st [cur len]]. simpl in *.
  pose proof (length_bytes_of st chunk Hchunk) as Hclen.
  pose proof (length_bytes_of st cur Hdata) as Hdlen.
  assert (newLen = len + Z.of_nat (blength chunk))%Z as HnewLen by done.
  clearbody newLen.
  unfold bufPush. run. rewrite <- HnewLen.
  destruct (Z.ltb_spec (Z.of_nat (blength cur)) newLen) as [Hgrow|Hroom].
  - (* reallocation *)
    pose proof (grown_capacity_enough (Z.of_nat (blength cur)) newLen) as Hcap.
    set (cap := grown_capacity (Z.of_nat (blength cur)) newLen) in *.
    unfold alloc. destruct (Z.ltb_spec cap 0) as [?|_]; [lia|]. simpl.
    set (grown := mkBuffer (List.length st) 0 (Z.to_nat cap)).
    set (st1 := st ++ [replicate (Z.to_nat cap) x00]).
    assert (view_ok st1 grown) as Hgrown.
    { apply view_ok_fresh. rewrite length_replicate. lia. }
    assert (view_ok st1 cur) as Hcur1 by by apply view_ok_app.
    assert (view_ok st1 chunk) as Hchunk1 by by apply view_ok_app.
    destruct (copy_fits st1 cur grown 0) as (st2 & n & -> & Hshape & Htouch & Hbytes);
      [done|done|lia|simpl; lia|].
    simpl.
    assert (view_ok st2 grown) as Hgrown2 by by apply (same_shape_view_ok st1).
    assert (view_ok st2 chunk) as Hchunk2 by by apply (same_shape_view_ok st1).
    destruct (copy_fits st2 chunk grown len) as (st3 & n' & -> & Hshape' & Htouch' & Hbytes');
      [done|done|lia|simpl; lia|].
    simpl. eexists. split; [reflexivity|]. simpl.
    assert (bytes_of st2 chunk = bytes_of st chunk) as Hc2.
    { rewrite (only_touches_bytes_of _ _ _ _ Htouch).
      - apply bytes_of_app. apply Hchunk.
      - simpl. destruct Hchunk. lia. }
    assert (bytes_of st1 cur = bytes_of st cur) as Hd1.
    { apply bytes_of_app. apply Hdata. }
    split_and!.
    + split; unfold capacity; simpl; [by apply (same_shape_view_ok st2) | lia].
    + done.
    + unfold valid. simpl. rewrite Hbytes', Hc2, Hbytes, Hd1.
      change (Z.to_nat 0) with 0. simpl.
      rewrite (take_app_le (bytes_of st cur)) by lia.
      replace (Z.to_nat newLen)
        with (Z.to_nat len + List.length (bytes_of st chunk)) by lia.
      apply take_written. rewrite length_take. lia.
    + lia.
    + intros b Hb. apply (same_shape_view_ok st2); [done|].
      apply (same_shape_view_ok st1); [done|]. by apply view_ok_app.
  - (* enough room *)
    simpl.
    destruct (copy_fits st chunk cur len) as (st' & n & -> & Hshape & Htouch & Hbytes);
      [done|done|lia|lia|].
    simpl. eexists. split; [reflexivity|]. simpl.
    split_and!.
    + split; unfold capacity; simpl; [by apply (same_shape_view_ok st) | lia].
    + done.
    + unfold valid. simpl. rewrite Hbytes.
      replace (Z.to_nat newLen)
        with (Z.to_nat len + List.length (bytes_of st chunk)) by lia.
      apply take_written. rewrite length_take. lia.
    + done.
    + intros b Hb. by apply (same_shape_view_ok st).
Qed.

(** [bufPop] within its precondition: the first [n] valid bytes are
    dropped and the storage stays the same [Buffer]. *)
Lemma bufPop_spec m (n : Z) :
  wf m → (0 ≤ n ≤ length (buf m))%Z →
  ∃ m',
    bufPop n m = (m', Normal tt)
    ∧ wf m'
    ∧ length (buf m') = (length (buf m) - n)%Z
    ∧ valid m' = drop (Z.to_nat n) (valid m)
    ∧ data (buf m') = data (buf m)
    ∧ same_shape (heap m) (heap m')
    ∧ only_touches (base (data (buf m))) (heap m) (heap m').
Proof.
  intros [Hdata Hlen] Hn. unfold capacity in *.
  destruct m as [st [cur len]]. simpl in *.
  unfold bufPop. run.
  destruct (copyWithin_front st cur n len) as (st' & -> & Hshape & Htouch & Hbytes);
    [done|lia|lia|].
  simpl. eexists. split; [reflexivity|]. simpl.
  split_and!; try done.
  split; unfold capacity; simpl; [by apply (same_shape_view_ok st) | lia].
Qed.

(** The region [cutMessage] scans is the valid region. *)
Lemma scanned_region m :
  wf m →
  bytes_of (heap m) (subarray (data (buf m)) 0 (length (buf m))) = valid m.
Proof. intros [_ Hlen]. unfold valid. apply bytes_of_subarray_front. lia. Qed.

(** [cutMessage] with its monadic steps run. *)
Lemma cutMessage_run m :
  cutMessage m =
  let delimIdx :=
    index_from 0 x0a
      (bytes_of (heap m) (subarray (data (buf m)) 0 (length (buf m)))) in
  if (delimIdx <? 0)%Z then (m, Normal None)
  else
    let cut := subarray (data (buf m)) 0 (delimIdx + 1) in
    let msg := mkBuffer (List.length (heap m)) 0 (blength cut) in
    match bufPop (delimIdx + 1)
            (mkMem (heap m ++ [bytes_of (heap m) cut]) (buf m)) with
    | (m', Normal _) => (m', Normal (Some msg))
    | (m', Throw e) => (m', Throw e)
    end.
Proof.
  destruct m as [st b]. unfold cutMessage, indexOf, from. run.
  by case_match.
Qed.

(** No delimiter among the valid bytes: [cutMessage] returns [null]
    and the memory is the one it started from. *)
Lemma cutMessage_none m :
  wf m → x0a ∉ valid m → cutMessage m = (m, Normal None).
Proof.
  intros Hwf Hnone. rewrite cutMessage_run.
  by rewrite scanned_region, index_from_absent.
Qed.

(** A first delimiter among the valid bytes: [cutMessage] returns a
    fresh [Buffer] with the bytes up to and including it, and pops
    them. *)
Lemma cutMessage_some m body rest :
  wf m → valid m = body ++ x0a :: rest → x0a ∉ body →
  ∃ m' msg,
    cutMessage m = (m', Normal (Some msg))
    ∧ wf m'
    ∧ bytes_of (heap m') msg = body ++ [x0a]
    ∧ valid m' = rest
    ∧ data (buf m') = data (buf m)
    ∧ base msg = List.length (heap m)
    ∧ view_ok (heap m') msg.
Proof.
  intros Hwf Hvalid Hbody.
  pose proof (valid_length m Hwf) as Hvlen.
  pose proof Hwf as [Hdata Hlen]. unfold capacity in Hlen.
  rewrite cutMessage_run.
  rewrite scanned_region, Hvalid, index_from_first, Z.add_0_l by done.
  rewrite Hvalid, length_app in Hvlen. simpl in Hvlen.
  remember (Z.of_nat (List.length body)) as i eqn:Hi.
  cbv zeta.
  destruct (Z.ltb_spec i 0) as [?|_]; [lia|].
  set (cut := subarray (data (buf m)) 0 (i + 1)).
  assert (bytes_of (heap m) cut = body ++ [x0a]) as Hcut.
  { unfold cut. rewrite bytes_of_subarray_front by lia.
    transitivity (take (Z.to_nat (i + 1)) (valid m)).
    - unfold valid. rewrite take_take. f_equal. lia.
    - rewrite Hvalid. rewrite (cons_middle x0a), app_assoc.
      apply take_app_length'. rewrite length_app. simpl. lia. }
  assert (blength cut = Z.to_nat (i + 1)) as Hcutlen.
  { apply blength_subarray_front. lia. }
  set (msg := mkBuffer (List.length (heap m)) 0 (blength cut)).
  set (m1 := mkMem (heap m ++ [bytes_of (heap m) cut]) (buf m)).
  assert (wf m1) as Hwf1.
  { split; [by apply view_ok_app | done]. }
  destruct (bufPop_spec m1 (i + 1) Hwf1) as (m' & Hpop & Hwf' & Hlen' & Hvalid' & Hsame & Hshape & Htouch).
  { simpl. lia. }
  fold m1. rewrite Hpop. exists m', msg. split; [reflexivity|].
  assert (valid m1 = valid m) as Hv1.
  { unfold valid, m1. simpl. f_equal. apply bytes_of_app. apply Hdata. }
  assert (view_ok (heap m1) msg) as Hmsg.
  { apply view_ok_fresh. rewrite Hcutlen, Hcut, length_app. simpl. lia. }
  split_and!; try done.
  - rewrite (only_touches_bytes_of _ _ _ _ Htouch).
    + unfold m1, msg. cbn [heap]. rewrite bytes_of_fresh, Hcutlen, Hcut.
      apply take_ge. rewrite length_app. simpl. lia.
    + simpl. destruct Hdata. lia.
  - rewrite Hvalid', Hv1, Hvalid.
    rewrite (cons_middle x0a), app_assoc.
    apply drop_app_length'. rewrite length_app. simpl. lia.
  - by apply (same_shape_view_ok (heap m1)).
Qed.

(** *** Chunks from the transport *)

Lemma empty_buf_wf st cap0 : wf (empty_buf st cap0).
Proof.
  split; unfold capacity; simpl; [|lia].
  apply view_ok_fresh. by rewrite length_replicate.
Qed.

Lemma empty_buf_valid st cap0 : valid (empty_buf st cap0) = [].
Proof. done. Qed.

Lemma wf_receive m bs :
  wf m → wf (mkMem (heap m ++ [bs]) (buf m))
         ∧ valid (mkMem (heap m ++ [bs]) (buf m)) = valid m.
Proof.
  intros [Hdata Hlen]. split.
  - split; [by apply view_ok_app | done].
  - unfold valid. simpl. f_equal. apply bytes_of_app. apply Hdata.
Qed.

Lemma push_bytes_spec m bs :
  wf m →
  ∃ m',
    push_bytes bs m = (m', Normal tt)
    ∧ wf m'
    ∧ valid m' = valid m ++ bs
    ∧ capacity m ≤ capacity m'.
Proof.
  intros Hwf. unfold push_bytes, receive. run.
  destruct (wf_receive m bs Hwf) as [Hwf1 Hv1].
  set (m1 := mkMem (heap m ++ [bs]) (buf m)) in *.
  set (chunk := mkBuffer (List.length (heap m)) 0 (List.length bs)).
  assert (view_ok (heap m1) chunk) as Hchunk by by apply view_ok_fresh.
  destruct (bufPush_spec m1 chunk Hwf1 Hchunk)
    as (m' & -> & Hwf' & Hlen' & Hvalid' & Hcap & _).
  exists m'. split_and!; try done.
  - rewrite Hvalid', Hv1. f_equal.
    unfold m1, chunk. simpl. rewrite bytes_of_fresh. by apply take_ge.
  - change (capacity m) with (capacity m1).
    destruct (Z.ltb_spec (Z.of_nat (capacity m1))
                (length (buf m1) + Z.of_nat (blength chunk))); [|lia].
    pose proof (grown_capacity_ge (Z.of_nat (capacity m1))
                  (length (buf m1) + Z.of_nat (blength chunk))). lia.
Qed.

Lemma push_all_spec chunks : ∀ m,
  wf m →
  ∃ m',
    push_all chunks m = (m', Normal tt)
    ∧ wf m'
    ∧ valid m' = valid m ++ concat chunks.
Proof.
  induction chunks as [|c cs IH]; intros m Hwf; simpl.
  - exists m. by rewrite app_nil_r.
  - run. destruct (push_bytes_spec m c Hwf) as (m1 & -> & Hwf1 & Hv1 & _).
    destruct (IH m1 Hwf1) as (m' & -> & Hwf' & Hv').
    exists m'. split_and!; try done. by rewrite Hv', Hv1, app_assoc.
Qed.

(** *** Counting delimiters *)

Lemma count_delims_absent s : count_delims s = 0 ↔ x0a ∉ s.
Proof.
  unfold count_delims. induction s as [|b s IH]; simpl.
  - split; [intros _; apply not_elem_of_nil | done].
  - rewrite filter_cons. case_decide as Hb; simpl.
    + subst b. split; [lia|]. intros Hn. exfalso. apply Hn. by left.
    + rewrite IH, not_elem_of_cons. split; [|by intros [_ ?]].
      intros Hs. split; [congruence | done].
Qed.

Lemma count_delims_first body rest :
  x0a ∉ body → count_delims (body ++ x0a :: rest) = S (count_delims rest).
Proof.
  intros Hbody%count_delims_absent. unfold count_delims in *.
  rewrite filter_app, length_app, Hbody, filter_cons.
  by case_decide.
Qed.

Lemma not_elem_of_concat (x : byte) (chunks : list (list byte)) :
  Forall (λ c, x ∉ c) chunks → x ∉ concat chunks.
Proof.
  induction 1 as [|c cs Hc _ IH]; simpl.
  - apply not_elem_of_nil.
  - by rewrite not_elem_of_app.
Qed.

(** *** Draining *)

Lemma cut_many_S n m :
  cut_many (S n) m =
  match cutMessage m with
  | (m1, Normal r) =>
      match cut_many n m1 with
      | (m2, Normal later) => (m2, Normal ((bytes_of (heap m1) <$> r) :: later))
      | (m2, Throw e) => (m2, Throw e)
      end
  | (m1, Throw e) => (m1, Throw e)
  end.
Proof.
  change (cut_many (S n) m) with
    ((r ← cutMessage ; seen ← observe r ; later ← cut_many n ;
      mret (seen :: later)) m).
  unfold observe, mbind, mret, M_bind, M_ret.
  destruct (cutMessage m) as [m1 [r|e]]; [|done].
  by destruct (cut_many n m1) as [m2 [later|e]].
Qed.

(** From a well-formed buffer whose valid bytes hold [k] delimiters,
    [k] calls return the [k] messages in order and one more call
    returns [null], leaving the bytes after the last delimiter. *)
Lemma drain k : ∀ m,
  wf m → count_delims (valid m) = k →
  ∃ m' msgs,
    cut_many (S k) m = (m', Normal ((Some <$> msgs) ++ [None]))
    ∧ wf m'
    ∧ List.length msgs = k
    ∧ Forall is_message msgs
    ∧ concat msgs ++ valid m' = valid m
    ∧ x0a ∉ valid m'.
Proof.
  induction k as [|k IH]; intros m Hwf Hk.
  - apply count_delims_absent in Hk.
    exists m, []. rewrite cut_many_S, cutMessage_none by done. done.
  - destruct (decide (x0a ∈ valid m)) as [Hin|Hnot];
      [|apply count_delims_absent in Hnot; lia].
    apply list_elem_of_split_l in Hin as (body & rest & Hsplit & Hbody).
    rewrite Hsplit, count_delims_first in Hk by done.
    destruct (cutMessage_some m body rest Hwf Hsplit Hbody)
      as (m1 & msg & Hcut & Hwf1 & Hmsg & Hv1 & _).
    destruct (IH m1 Hwf1) as (m' & msgs & Hrest & Hwf' & Hlen & Hall & Hcat & Hrem);
      [rewrite Hv1; lia|].
    exists m', ((body ++ [x0a]) :: msgs).
    split_and!; try done.
    + rewrite cut_many_S, Hcut, Hrest. simpl. by rewrite Hmsg.
    + simpl. lia.
    + constructor; [by exists body | done].
    + simpl. rewrite <- !app_assoc, Hcat, Hv1, Hsplit. done.
Qed.

(** *** What the operations may write to *)

Lemma backing_app_lt (st more : list (list byte)) a :
  a < List.length st → backing (st ++ more) a = backing st a.
Proof. intros Hlt. unfold backing. by rewrite lookup_app_l. Qed.

Lemma bufPop_frame m n m' c :
  base (data (buf m)) < List.length (heap m) →
  bufPop n m = (m', c) → frame m m'.
Proof.
  intros Hbase. unfold bufPop. run.
  destruct (copyWithin _ _ _ _ _) as [st' r] eqn:Hcw.
  apply copyWithin_only_touches in Hcw as [Hl Hother].
  destruct r; intros; simplify_eq; simpl;
    (unfold frame; simpl; split_and!; [lia | lia | by left | by intros; apply Hother]).
Qed.

Lemma bufPush_frame m chunk m' c :
  base (data (buf m)) < List.length (heap m) →
  bufPush chunk m = (m', c) → frame m m'.
Proof.
  intros Hbase. unfold bufPush. run.
  destruct (Z.of_nat (blength (data (buf m))) <? _)%Z.
  - unfold alloc. destruct (grown_capacity _ _ <? 0)%Z; simpl.
    + intros; simplify_eq. unfold frame; simpl; split_and!; [lia | done | by left | done].
    + destruct (copy (data (buf m)) _ _ _ _) as [st1 r1] eqn:Hc1.
      apply copy_only_touches in Hc1 as [Hl1 Ho1]. simpl in *.
      rewrite length_app in Hl1. simpl in Hl1.
      destruct r1; simpl.
      2:{ intros; simplify_eq. simpl. unfold frame; simpl; split_and!; [lia | lia | by left |].
          intros a' Ha Hne. rewrite Ho1 by lia. by apply backing_app_lt. }
      destruct (copy chunk _ _ _ _) as [st2 r2] eqn:Hc2.
      apply copy_only_touches in Hc2 as [Hl2 Ho2]. simpl in *.
      destruct r2; intros; simplify_eq; simpl;
        (unfold frame; simpl; split_and!; [lia | lia | right; lia |];
         intros a' Ha Hne; rewrite Ho2, Ho1 by lia; by apply backing_app_lt).
  - simpl.
    destruct (copy chunk _ _ _ _) as [st2 r2] eqn:Hc2.
    apply copy_only_touches in Hc2 as [Hl2 Ho2]. simpl in *.
    destruct r2; intros; simplify_eq; simpl;
      (unfold frame; simpl; split_and!; [lia | lia | by left | by intros; apply Ho2]).
Qed.

Lemma receive_frame m bs m' c :
  base (data (buf m)) < List.length (heap m) →
  receive bs m = (m', c) → frame m m'.
Proof.
  intros Hbase. unfold receive. intros; simplify_eq. simpl.
  unfold frame; simpl; split_and!; [rewrite length_app; lia | rewrite length_app; lia | by left |].
  intros a Ha _. by apply backing_app_lt.
Qed.

Lemma frame_trans m1 m2 m3 :
  base (data (buf m1)) < List.length (heap m1) →
  frame m1 m2 → frame m2 m3 → frame m1 m3.
Proof.
  intros Hb (Hl1 & Hb2 & Hd1 & Ho1) (Hl2 & Hb3 & Hd2 & Ho2).
  unfold frame; simpl; split_and!; [lia | done | destruct Hd1, Hd2; (by left; congruence) || (right; lia) |].
  intros a Ha Hne. rewrite Ho2, Ho1; [done..|lia|].
  destruct Hd1 as [->|?]; [done|lia].
Qed.

Lemma cutMessage_frame m m' c :
  base (data (buf m)) < List.length (heap m) →
  cutMessage m = (m', c) → frame m m'.
Proof.
  intros Hbase. rewrite cutMessage_run. cbv zeta.
  case_match.
  - intros; simplify_eq. unfold frame; simpl; split_and!; [lia | done | by left | done].
  - set (m1 := mkMem _ _).
    destruct (bufPop _ m1) as [m2 r] eqn:Hpop.
    assert (frame m m1) as Hf1.
    { eapply receive_frame; [done|]. unfold receive, m1. reflexivity. }
    assert (frame m1 m2) as Hf2.
    { eapply bufPop_frame; [|done]. unfold m1. simpl. rewrite length_app. lia. }
    assert (frame m m2) as Hf.
    { by eapply frame_trans. }
    destruct r; intros; by simplify_eq.
Qed.

Lemma any_step_frame m m' :
  base (data (buf m)) < List.length (heap m) → any_step m m' → frame m m'.
Proof.
  intros Hbase Hstep.
  destruct Hstep as [? chunk ? c Hrun|? n ? c Hrun|? ? c Hrun|? bs ? c Hrun].
  - by apply (bufPush_frame _ chunk _ c).
  - by apply (bufPop_frame _ n _ c).
  - by apply (cutMessage_frame _ _ c).
  - by apply (receive_frame _ bs _ c).
Qed.

(** A [Buffer] on an array other than the storage of the buffer
    shows the same bytes after any sequence of operations. *)
Lemma foreign_buffer_stable m m' :
  rtc any_step m m' →
  ∀ b : Buffer,
    base (data (buf m)) < List.length (heap m) →
    base b < List.length (heap m) →
    base b ≠ base (data (buf m)) →
    bytes_of (heap m') b = bytes_of (heap m) b.
Proof.
  induction 1 as [m|m1 m2 m3 Hstep _ IH]; intros b Hdata Hb Hne; [done|].
  destruct (any_step_frame m1 m2 Hdata Hstep) as (Hl & Hb2 & Hd & Ho).
  rewrite IH; [|done|lia|destruct Hd as [->|?]; [done|lia]].
  unfold bytes_of. by rewrite Ho.
Qed.

Lemma bufPop_keeps_storage m n m' c :
  bufPop n m = (m', c) →
  data (buf m') = data (buf m) ∧ List.length (heap m') = List.length (heap m).
Proof.
  unfold bufPop. run.
  destruct (copyWithin _ _ _ _ _) as [st' r] eqn:Hcw.
  apply copyWithin_only_touches in Hcw as [Hl _].
  destruct r; intros; by simplify_eq.
Qed.

(** A returned message is a new array, and the storage of the buffer
    is the one it was. *)
Lemma cutMessage_result m m' msg :
  cutMessage m = (m', Normal (Some msg)) →
  base msg = List.length (heap m)
  ∧ data (buf m') = data (buf m)
  ∧ List.length (heap m') = S (List.length (heap m)).
Proof.
  rewrite cutMessage_run. cbv zeta. case_match; [intros; simplify_eq|].
  destruct (bufPop _ _) as [m2 r] eqn:Hpop.
  apply bufPop_keeps_storage in Hpop as [Hd Hl]. simpl in *.
  rewrite length_app in Hl. simpl in Hl.
  destruct r; intros; simplify_eq. split_and!; [done..|lia].
Qed.

(** *** Capacity *)

Lemma op_step_capacity m m' :
  wf m → op_step m m' →
  wf m'
  ∧ (capacity m' = capacity m
     ∨ (32 ≤ capacity m'
        ∧ ∃ k : nat, Z.of_nat (capacity m')
                     = (Z.max (Z.of_nat (capacity m)) 32 * 2 ^ Z.of_nat k)%Z)).
Proof.
  intros Hwf Hstep.
  destruct Hstep as [m chunk m' Hchunk Hrun|m n m' Hn Hrun|m bs chunk m' Hrun].
  - destruct (bufPush_spec m chunk Hwf Hchunk) as (m1 & Hrun1 & Hwf1 & _ & _ & Hcap & _).
    rewrite Hrun in Hrun1. simplify_eq. split; [done|].
    destruct (Z.of_nat (capacity m) <? _)%Z; [right|left; lia].
    pose proof (grown_capacity_ge (Z.of_nat (capacity m))
                  (length (buf m) + Z.of_nat (blength chunk))).
    split; [lia|]. rewrite Hcap. apply grown_capacity_pow2.
  - destruct (bufPop_spec m n Hwf Hn) as (m1 & Hrun1 & Hwf1 & _ & _ & Hd & _).
    rewrite Hrun in Hrun1. simplify_eq. split; [done|left].
    unfold capacity. by rewrite Hd.
  - unfold receive in Hrun. simplify_eq.
    split; [apply (wf_receive m bs Hwf) | by left].
Qed.

Lemma reachable_capacity st cap0 m :
  rtc op_step (empty_buf st cap0) m → wf m ∧ capacity_shape cap0 (capacity m).
Proof.
  revert m. apply rtc_ind_r.
  - split; [apply empty_buf_wf | by left].
  - intros m m' Hreach Hstep [Hwf Hshape].
    destruct (op_step_capacity m m' Hwf Hstep) as [Hwf' Hcap].
    split; [done|].
    destruct Hcap as [->|[Hbig [k Hk]]]; [done|]. right. split; [done|].
    destruct Hshape as [Heq|[Hbig0 [j Hj]]]; [exists k; by rewrite <- Heq|].
    exists (j + k). rewrite Hk, Z.max_l by lia.
    rewrite Hj, Nat2Z.inj_add, Z.pow_add_r by lia. lia.
Qed.

(** *** The second copy of [bufPush] *)

(** When it reallocates, the second copy sets [length] to the new
    capacity before [data.copy], which then finds no room and copies
    nothing: the valid bytes are the whole old storage followed by
    zeros, whatever the chunk holds. *)
Lemma Variant2_growth_drops_chunk m chunk :
  wf m → view_ok (heap m) chunk →
  let newLen := (length (buf m) + Z.of_nat (blength chunk))%Z in
  (Z.of_nat (capacity m) < newLen)%Z →
  ∃ m',
    Variant2.bufPush chunk m = (m', Normal tt)
    ∧ length (buf m') = newLen
    ∧ valid m'
      = bytes_of (heap m) (data (buf m))
        ++ replicate (Z.to_nat newLen - capacity m) x00.
Proof.
  intros [Hdata Hlen] Hchunk newLen Hgrow. unfold capacity in *.
  destruct m as [st [cur len]]. simpl in *.
  pose proof (length_bytes_of st cur Hdata) as Hdlen.
  assert (newLen = len + Z.of_nat (blength chunk))%Z as HnewLen by done.
  clearbody newLen.
  unfold Variant2.bufPush. run. rewrite <- HnewLen.
  destruct (Z.ltb_spec (Z.of_nat (blength cur)) newLen) as [_|?]; [|lia].
  pose proof (grown_capacity_enough (Z.of_nat (blength cur)) newLen) as Hcap.
  set (cap := grown_capacity (Z.of_nat (blength cur)) newLen) in *.
  unfold alloc. destruct (Z.ltb_spec cap 0) as [?|_]; [lia|]. simpl.
  set (grown := mkBuffer (List.length st) 0 (Z.to_nat cap)).
  set (st1 := st ++ [replicate (Z.to_nat cap) x00]).
  assert (view_ok st1 grown) as Hgrown.
  { apply view_ok_fresh. rewrite length_replicate. lia. }
  assert (view_ok st1 cur) as Hcur1 by by apply view_ok_app.
  destruct (copy_fits st1 cur grown 0) as (st2 & n & -> & Hshape & Htouch & Hbytes);
    [done|done|lia|simpl; lia|].
  simpl. unfold copy. simpl.
  destruct (Z.ltb_spec cap 0) as [?|_]; [lia|].
  destruct (Z.ltb_spec (Z.of_nat (blength chunk)) 0) as [?|_]; [lia|].
  destruct (Z.leb_spec (Z.of_nat (Z.to_nat cap)) cap) as [_|?]; [|lia].
  simpl. eexists. split; [reflexivity|]. split; [done|].
  unfold valid. simpl. rewrite Hbytes.
  change (Z.to_nat 0) with 0. simpl.
  unfold st1 at 1. rewrite (bytes_of_app st cur) by apply Hdata.
  unfold st1, grown. rewrite bytes_of_fresh.
  rewrite take_replicate, drop_replicate.
  rewrite take_app_ge by lia. f_equal.
  rewrite take_replicate. f_equal. lia.
Qed.

End DynBufFacts.

(** ** Facts about the connection adapter *)

Module TcpConnFacts.
Import Node TcpConn.

Lemma soInit_reader_pending : reader_pending soInit.
Proof. intros p Hp. discriminate. Qed.

Lemma lookup_alter_pending {A} (outcome : Promise A) p (l : list (Promise A)) :
  l !! p = Some Pending → alter (settle outcome) p l !! p = Some outcome.
Proof. intros Hp. by rewrite list_lookup_alter_eq, Hp. Qed.

Lemma act_reader_pending a w : reader_pending w → reader_pending (act a w).
Proof.
  intros Hinv. destruct a as [|data|[data| |e|q failure]]; simpl.
  - unfold soRead. destruct (reader (conn w)) as [p|] eqn:Hr; [done|].
    destruct (err (conn w)) eqn:He; simpl.
    { intros p Hp. simpl in Hp. congruence. }
    destruct (ended (conn w)) eqn:Hd; simpl.
    { intros p Hp. simpl in Hp. congruence. }
    intros p Hp. simpl in *. simplify_eq.
    split_and!; [|done..].
    rewrite lookup_app_r by lia. by rewrite Nat.sub_diag.
  - unfold soWrite. case_decide; [done|]. by destruct (err (conn w)).
  - unfold on_data. destruct (reader (conn w)); [|done].
    intros p Hp. discriminate.
  - unfold on_end. destruct (reader (conn w)); intros p Hp; discriminate.
  - unfold on_error. destruct (reader (conn w)); intros p Hp; discriminate.
  - done.
Qed.

Lemma run_app trace later w : run (trace ++ later) w = run later (run trace w).
Proof. unfold run. by rewrite foldl_app. Qed.

Lemma run_snoc trace a w : run (trace ++ [a]) w = act a (run trace w).
Proof. by rewrite run_app. Qed.

Lemma run_reader_pending trace : reader_pending (run trace soInit).
Proof.
  induction trace as [|a trace IH] using rev_ind.
  - apply soInit_reader_pending.
  - rewrite run_snoc. by apply act_reader_pending.
Qed.

(** A latched error or end of stream clears the reader. *)
Lemma latched_no_reader trace :
  let w := run trace soInit in
  (is_Some (err (conn w)) ∨ ended (conn w) = true) → reader (conn w) = None.
Proof.
  intros w Hlatched. destruct (reader (conn w)) as [p|] eqn:Hr; [|done].
  destruct (run_reader_pending trace p Hr) as (_ & He & Hd).
  fold w in He, Hd. destruct Hlatched as [[e ?]|?]; congruence.
Qed.

(** The two latches only go one way. *)
Lemma act_latches a w :
  (is_Some (err (conn w)) → is_Some (err (conn (act a w))))
  ∧ (ended (conn w) = true → ended (conn (act a w)) = true).
Proof.
  destruct a as [|data|[data| |e|q failure]]; simpl.
  - unfold soRead. by repeat case_match.
  - unfold soWrite. by repeat case_match.
  - unfold on_data. by repeat case_match.
  - unfold on_end. by repeat case_match.
  - unfold on_error. repeat case_match; simpl; eauto.
  - done.
Qed.

Lemma run_latches later w :
  (is_Some (err (conn w)) → is_Some (err (conn (run later w))))
  ∧ (ended (conn w) = true → ended (conn (run later w)) = true).
Proof.
  induction later as [|a later IH] using rev_ind; [done|].
  rewrite run_snoc. destruct IH as [IHerr IHend].
  destruct (act_latches a (run later w)) as [Herr Hend].
  split; intros ?; [apply Herr, IHerr | apply Hend, IHend]; done.
Qed.

(** *** The serving loop *)

Lemma lookup_snoc {A} (l : list A) (x : A) : (l ++ [x]) !! length l = Some x.
Proof. rewrite lookup_app_r by lia. by rewrite Nat.sub_diag. Qed.

Lemma not_elem_of_snoc (l : list SocketCall) (c : SocketCall) :
  Destroy ∉ l → c ≠ Destroy → Destroy ∉ l ++ [c].
Proof.
  intros Hl Hc. rewrite not_elem_of_app. split; [done|].
  rewrite list_elem_of_singleton. congruence.
Qed.

(** After a read that produced data: the data is written as it is. *)
Lemma after_read_echoes again data w :
  data ≠ [] → err (conn w) = None →
  after_read again data w
  = mkServer (mkWorld (conn w) (reads w) (writes w ++ [Pending])
                (socket w ++ [Write data (length (writes w))]))
      (AwaitWrite (length (writes w))).
Proof.
  intros Hdata Herr. unfold after_read, soWrite.
  case_decide as Hlen; [by apply length_zero_iff_nil in Hlen|].
  rewrite Herr. simpl. by rewrite lookup_snoc.
Qed.

Lemma after_read_serving again data w :
  reader (conn w) = None → Destroy ∉ socket w →
  serving (after_read again data w).
Proof.
  intros Hreader Hsock. unfold after_read, soWrite.
  case_decide as Hlen; [done|].
  destruct (err (conn w)) as [e|]; simpl; rewrite lookup_snoc; [done|].
  unfold serving. simpl. split_and!; [done| |by apply not_elem_of_snoc].
  by rewrite lookup_snoc.
Qed.

(** One iteration is all the loop runs before it suspends or ends. *)
Lemma serve_loop_serving n w :
  reader (conn w) = None → Destroy ∉ socket w →
  serving (serve_loop (S n) w).
Proof.
  intros Hreader Hsock. simpl. unfold soRead. rewrite Hreader.
  destruct (err (conn w)) as [e|] eqn:Herr; simpl.
  { by rewrite lookup_snoc. }
  destruct (ended (conn w)) eqn:Hended; simpl; rewrite lookup_snoc.
  - by apply after_read_serving.
  - unfold serving. simpl. split_and!; [done| |done..|by apply not_elem_of_snoc].
    apply lookup_snoc.
Qed.

Lemma resume_write_serving w q :
  reader (conn w) = None → writes w !! q ≠ None → Destroy ∉ socket w →
  serving (resume (mkServer w (AwaitWrite q))).
Proof.
  intros Hreader Hq Hsock. unfold resume. cbn [pc world].
  destruct (writes w !! q) as [[| |]|] eqn:Hlook; try done.
  - unfold serving. simpl. by rewrite Hlook.
  - by apply (serve_loop_serving 1).
Qed.

Lemma finish_serving s : serving s → serving (finish s).
Proof.
  unfold finish. destruct (pc s) eqn:Hpc; try done;
    case_decide; try done; unfold serving; simpl; by rewrite Hpc.
Qed.

Lemma deliver_serving ev s : serving s → serving (deliver ev s).
Proof.
  intros Hs. unfold deliver. apply finish_serving.
  destruct s as [w pc0]. unfold serving in Hs. simpl in *.
  destruct pc0 as [p|q| | |]; try done.
  - (* awaiting the read *)
    destruct Hs as (Hreader & Hpending & Herr & Hended & Hsock).
    unfold resume. simpl.
    destruct ev as [data| |e|q failure]; simpl.
    + unfold on_data. rewrite Hreader. simpl.
      rewrite (lookup_alter_pending _ _ _ Hpending).
      apply after_read_serving; simpl; [done|by apply not_elem_of_snoc].
    + unfold on_end. rewrite Hreader. simpl.
      rewrite (lookup_alter_pending _ _ _ Hpending).
      by apply after_read_serving.
    + unfold on_error. rewrite Hreader. simpl.
      by rewrite (lookup_alter_pending _ _ _ Hpending).
    + rewrite Hpending. unfold serving. simpl. done.
  - (* awaiting the write *)
    destruct Hs as (Hreader & Hq & Hsock).
    apply resume_write_serving;
      destruct ev as [data| |e|q' failure]; simpl;
      unfold on_data, on_end, on_error; rewrite ?Hreader; simpl; try done.
    rewrite list_lookup_alter. case_decide; [subst q'|done].
    by destruct (writes w !! q).
Qed.

Lemma newConn_serving : serving newConn.
Proof.
  apply finish_serving. unfold serveClient, fuel.
  apply serve_loop_serving; [done|]. apply not_elem_of_nil.
Qed.

Lemma serve_snoc events ev : serve (events ++ [ev]) = deliver ev (serve events).
Proof. unfold serve. by rewrite foldl_app. Qed.

(** The invariant holds after every sequence of events; in
    particular the loop never stops for lack of fuel. *)
Lemma serve_serving events : serving (serve events).
Proof.
  induction events as [|ev events IH] using rev_ind.
  - apply newConn_serving.
  - rewrite serve_snoc. by apply deliver_serving.
Qed.

End TcpConnFacts.

(** ** Properties of the framing buffer *)

Module DynBufSpec.
Import Node NodeFacts DynBufs DynBufFacts Samples.

(** Decidable facts about concrete bytes, by computation. *)
Ltac by_computation := apply (bool_decide_unpack _); vm_compute; exact I.

(** C1.  Chunks appended with [bufPush] to an empty buffer, whose
    concatenation holds [k] newline delimiters: [k] successive calls
    of [cutMessage] each return a message, every message is the bytes
    up to and including the next delimiter, in stream order (the
    messages followed by the bytes left in the buffer are the stream),
    and one more call returns [null] with the delimiter-free rest as
    the valid bytes. *)
Theorem cutMessage_drains_stream (st : list (list byte)) (cap0 : nat)
    (chunks : list (list byte)) :
  ∃ m1 m2 msgs,
    push_all chunks (empty_buf st cap0) = (m1, Normal tt)
    ∧ cut_many (S (count_delims (concat chunks))) m1
      = (m2, Normal ((Some <$> msgs) ++ [None]))
    ∧ List.length msgs = count_delims (concat chunks)
    ∧ Forall is_message msgs
    ∧ concat msgs ++ valid m2 = concat chunks
    ∧ x0a ∉ valid m2.
Proof.
  destruct (push_all_spec chunks (empty_buf st cap0) (empty_buf_wf st cap0))
    as (m1 & Hpush & Hwf1 & Hv1).
  rewrite empty_buf_valid in Hv1. simpl in Hv1.
  destruct (drain (count_delims (concat chunks)) m1 Hwf1)
    as (m2 & msgs & Hcut & _ & Hlen & Hall & Hcat & Hrem);
    [by rewrite Hv1|].
  rewrite Hv1 in Hcat. by exists m1, m2, msgs.
Qed.

(** Three lines that arrive in one chunk come out one by one. *)
Example pipelined_lines_in_order :
  (cut_many 4 (push_all [pipelined] (empty_buf [] 0)).1).2
  = Normal [ Some [x68; x65; x6c; x6c; nl];
             Some [x31; x32; x33; x34; nl];
             Some [x71; x75; x69; x74; nl];
             None ].
Proof. reflexivity. Qed.

(** C4.  While the valid bytes hold no delimiter, [cutMessage]
    returns [null] and changes nothing, also after further
    delimiter-free chunks were appended; once the appended chunks
    complete a message, [cutMessage] returns it, wherever the chunk
    boundaries fall. *)
Theorem cutMessage_waits_for_delimiter (m : Mem)
    (quiet chunks : list (list byte)) (body rest : list byte) :
  wf m →
  x0a ∉ valid m →
  Forall (λ c, x0a ∉ c) quiet →
  valid m ++ concat quiet ++ concat chunks = body ++ x0a :: rest →
  x0a ∉ body →
  cutMessage m = (m, Normal None)
  ∧ ∃ m1,
      push_all quiet m = (m1, Normal tt)
      ∧ cutMessage m1 = (m1, Normal None)
      ∧ ∃ m2 m3 msg,
          push_all chunks m1 = (m2, Normal tt)
          ∧ cutMessage m2 = (m3, Normal (Some msg))
          ∧ bytes_of (heap m3) msg = body ++ [x0a]
          ∧ valid m3 = rest.
Proof.
  intros Hwf Hnone Hquiet Hstream Hbody.
  split; [by apply cutMessage_none|].
  destruct (push_all_spec quiet m Hwf) as (m1 & Hp1 & Hwf1 & Hv1).
  exists m1. split; [done|]. split.
  - apply cutMessage_none; [done|]. rewrite Hv1.
    rewrite not_elem_of_app. split; [done | by apply not_elem_of_concat].
  - destruct (push_all_spec chunks m1 Hwf1) as (m2 & Hp2 & Hwf2 & Hv2).
    rewrite Hv1, <- app_assoc, Hstream in Hv2.
    destruct (cutMessage_some m2 body rest Hwf2 Hv2 Hbody)
      as (m3 & msg & Hcut & _ & Hmsg & Hv3 & _).
    by exists m2, m3, msg.
Qed.

Lemma cutMessage_waits_for_delimiter_witness :
  wf (empty_buf [] 0)
  ∧ (x0a ∉ valid (empty_buf [] 0))
  ∧ Forall (λ c, x0a ∉ c) quiet_chunks
  ∧ valid (empty_buf [] 0) ++ concat quiet_chunks ++ concat closing_chunks
    = hello_body ++ x0a :: []
  ∧ (x0a ∉ hello_body)
  ∧ cutMessage (empty_buf [] 0) = (empty_buf [] 0, Normal None)
  ∧ ∃ m1,
      push_all quiet_chunks (empty_buf [] 0) = (m1, Normal tt)
      ∧ cutMessage m1 = (m1, Normal None)
      ∧ ∃ m2 m3 msg,
          push_all closing_chunks m1 = (m2, Normal tt)
          ∧ cutMessage m2 = (m3, Normal (Some msg))
          ∧ bytes_of (heap m3) msg = hello_body ++ [x0a]
          ∧ valid m3 = [].
Proof.
  assert (wf (empty_buf [] 0)) as Hwf.
  { unfold wf, view_ok, backing, capacity. simpl. lia. }
  assert (x0a ∉ valid (empty_buf [] 0)) as Hnone by by_computation.
  assert (Forall (λ c, x0a ∉ c) quiet_chunks) as Hquiet.
  { repeat constructor. by_computation. }
  assert (x0a ∉ hello_body) as Hbody by by_computation.
  split_and!; [done | done | done | reflexivity | done |..];
    apply (cutMessage_waits_for_delimiter (empty_buf [] 0)
             quiet_chunks closing_chunks hello_body [] Hwf Hnone Hquiet
             eq_refl Hbody).
Defined.

(** C10.  [cutMessage] looks at the valid bytes only: with no
    delimiter among them it returns [null], also when the storage
    beyond [length] (bytes left behind by [bufPop]) holds one. *)
Theorem cutMessage_ignores_stale_bytes (m : Mem) :
  wf m →
  x0a ∉ valid m →
  x0a ∈ drop (Z.to_nat (length (buf m))) (bytes_of (heap m) (data (buf m))) →
  cutMessage m = (m, Normal None).
Proof. intros Hwf Hnone _. by apply cutMessage_none. Qed.

Lemma cutMessage_ignores_stale_bytes_witness :
  wf drained
  ∧ (x0a ∉ valid drained)
  ∧ (x0a ∈ drop (Z.to_nat (length (buf drained)))
             (bytes_of (heap drained) (data (buf drained))))
  ∧ cutMessage drained = (drained, Normal None).
Proof.
  assert (wf drained) as Hwf.
  { let d := eval vm_compute in drained in change drained with d.
    unfold wf, view_ok, backing, capacity. simpl. lia. }
  assert (x0a ∉ valid drained) as Hnone by by_computation.
  assert (x0a ∈ drop (Z.to_nat (length (buf drained)))
                  (bytes_of (heap drained) (data (buf drained)))) as Hstale
    by by_computation.
  split_and!; [done..|].
  exact (cutMessage_ignores_stale_bytes drained Hwf Hnone Hstale).
Defined.

(** C9.  The two copies of [bufPush] differ: on a push that
    reallocates, the copy that sets [length] to the new capacity
    leaves other valid bytes than the copy that does not. *)
Theorem bufPush_variants_differ :
  ∃ (m : Mem) (chunk : Buffer) (m1 m2 : Mem),
    wf m
    ∧ view_ok (heap m) chunk
    ∧ (Z.of_nat (capacity m) < length (buf m) + Z.of_nat (blength chunk))%Z
    ∧ bufPush chunk m = (m1, Normal tt)
    ∧ Variant2.bufPush chunk m = (m2, Normal tt)
    ∧ valid m1 = bytes_of (heap m) chunk
    ∧ valid m2 = replicate (blength chunk) x00
    ∧ valid m1 ≠ valid m2.
Proof.
  exists (mkMem [[]; [x61; x62]] (mkDynBuf (mkBuffer 0 0 0) 0)),
         (mkBuffer 1 0 2).
  eexists _, _. split_and!.
  - split; [split; simpl; lia | unfold capacity; simpl; lia].
  - unfold view_ok, backing. simpl. lia.
  - unfold capacity. simpl. lia.
  - vm_compute. reflexivity.
  - vm_compute. reflexivity.
  - reflexivity.
  - reflexivity.
  - discriminate.
Qed.

(** C7.  A message returned by [cutMessage] is a copy: whatever is
    pushed to or popped from the buffer afterwards, the returned
    [Buffer] shows the same bytes. *)
Theorem cut_message_is_a_copy (m m1 m2 : Mem) (msg : Buffer) :
  base (data (buf m)) < List.length (heap m) →
  cutMessage m = (m1, Normal (Some msg)) →
  rtc any_step m1 m2 →
  bytes_of (heap m2) msg = bytes_of (heap m1) msg.
Proof.
  intros Hdata Hcut Hlater.
  destruct (cutMessage_result m m1 msg Hcut) as (Hmsg & Hsame & Hlen).
  apply (foreign_buffer_stable m1 m2 Hlater); rewrite ?Hsame; lia.
Qed.

Lemma cut_message_is_a_copy_witness :
  base (data (buf holding_two_lines)) < List.length (heap holding_two_lines)
  ∧ cutMessage holding_two_lines = (after_first_cut, Normal (Some first_line))
  ∧ rtc any_step after_first_cut after_more_traffic
  ∧ bytes_of (heap after_more_traffic) first_line
    = bytes_of (heap after_first_cut) first_line.
Proof.
  assert (base (data (buf holding_two_lines))
          < List.length (heap holding_two_lines)) as Hdata
    by (vm_compute; lia).
  assert (cutMessage holding_two_lines
          = (after_first_cut, Normal (Some first_line))) as Hcut
    by (vm_compute; reflexivity).
  assert (rtc any_step after_first_cut after_more_traffic) as Hlater.
  { eapply rtc_l; [eapply (any_receive _ [x7a; x7a; x7a]); reflexivity|].
    eapply rtc_l; [eapply (any_push _ (mkBuffer 4 0 3)); vm_compute; reflexivity|].
    eapply rtc_l; [eapply (any_pop _ 1); vm_compute; reflexivity|].
    vm_compute. apply rtc_refl. }
  split_and!; [done..|].
  exact (cut_message_is_a_copy holding_two_lines after_first_cut
           after_more_traffic first_line Hdata Hcut Hlater).
Defined.

(** In that instance the buffer has moved on while the message has
    not. *)
Example cut_message_instance :
  valid after_first_cut = [x62; nl]
  ∧ valid after_more_traffic = [nl; x7a; x7a; x7a]
  ∧ bytes_of (heap after_more_traffic) first_line = [x61; nl].
Proof. by split_and!. Qed.

(** Without the copy the message would not survive: the view
    [subarray(0, 2)] of the storage, taken before the first line was
    cut, shows the second line afterwards. *)
Example uncopied_view_changes :
  let view := subarray (data (buf holding_two_lines)) 0 2 in
  bytes_of (heap holding_two_lines) view = [x61; nl]
  ∧ bytes_of (heap after_first_cut) view = [x62; nl].
Proof. split; reflexivity. Qed.

(** C3, as the code has it.  After any sequence of [bufPush] and
    [bufPop] (within its precondition) on a buffer created empty with
    capacity [cap0]: the capacity is [cap0] or [max(cap0, 32)] times a
    power of two, hence 32 times a power of two whenever [cap0 <= 32];
    it is at least [length]; every further operation returns and
    leaves a capacity that is not smaller, and [bufPop] leaves the
    same capacity. *)
Theorem capacity_invariant (st : list (list byte)) (cap0 : nat) (m : Mem) :
  rtc op_step (empty_buf st cap0) m →
  (capacity m = cap0
   ∨ ∃ k : nat, Z.of_nat (capacity m)
                = (Z.max (Z.of_nat cap0) 32 * 2 ^ Z.of_nat k)%Z)
  ∧ (cap0 ≤ 32 →
     capacity m = cap0 ∨ ∃ k : nat, capacity m = 32 * 2 ^ k)
  ∧ (0 ≤ length (buf m) ≤ Z.of_nat (capacity m))%Z
  ∧ (∀ m', op_step m m' → capacity m ≤ capacity m')
  ∧ (∀ chunk, view_ok (heap m) chunk →
       ∃ m', bufPush chunk m = (m', Normal tt) ∧ capacity m ≤ capacity m')
  ∧ (∀ n, (0 ≤ n ≤ length (buf m))%Z →
       ∃ m', bufPop n m = (m', Normal tt) ∧ capacity m' = capacity m).
Proof.
  intros Hreach.
  destruct (reachable_capacity st cap0 m Hreach) as [Hwf Hshape].
  assert (∀ m', op_step m m' → capacity m ≤ capacity m') as Hmono.
  { intros m' Hstep.
    destruct (op_step_capacity m m' Hwf Hstep) as [_ [->|[_ [k Hk]]]]; [done|].
    assert (0 < 2 ^ Z.of_nat k)%Z by (apply Z.pow_pos_nonneg; lia). nia. }
  split_and!.
  - destruct Hshape as [?|[_ ?]]; [by left | by right].
  - intros Hsmall. destruct Hshape as [?|[_ [k Hk]]]; [by left | right].
    exists k. rewrite Z.max_r in Hk by lia.
    apply Nat2Z.inj. rewrite Hk, Nat2Z.inj_mul, Nat2Z.inj_pow. done.
  - apply Hwf.
  - apply Hwf.
  - done.
  - intros chunk Hchunk.
    destruct (bufPush_spec m chunk Hwf Hchunk) as (m' & Hrun & _).
    exists m'. split; [done|]. apply Hmono. by eapply step_push.
  - intros n Hn.
    destruct (bufPop_spec m n Hwf Hn) as (m' & Hrun & _ & _ & _ & Hd & _).
    exists m'. split; [done|]. unfold capacity. by rewrite Hd.
Qed.

Lemma forty_grown_reachable : rtc op_step forty forty_grown.
Proof.
  eapply rtc_l;
    [eapply (step_receive _ (replicate 41 x61)); reflexivity|].
  eapply rtc_l; [eapply (step_push _ (mkBuffer 1 0 41))|].
  - unfold view_ok, backing. simpl. lia.
  - vm_compute. reflexivity.
  - vm_compute. apply rtc_refl.
Defined.

Lemma capacity_invariant_witness :
  rtc op_step (empty_buf [] 40) forty_grown
  ∧ (capacity forty_grown = 40
   ∨ ∃ k : nat, Z.of_nat (capacity forty_grown)
                = (Z.max (Z.of_nat 40) 32 * 2 ^ Z.of_nat k)%Z)
  ∧ (0 ≤ length (buf forty_grown) ≤ Z.of_nat (capacity forty_grown))%Z.
Proof.
  split; [apply forty_grown_reachable|].
  destruct (capacity_invariant [] 40 forty_grown forty_grown_reachable)
    as (Hshape & _ & Hlen & _).
  by split.
Defined.

(** C3, as stated, fails: starting empty with capacity 40, one push
    of 41 bytes gives capacity 80, which is neither the initial
    capacity nor 32 times a power of two. *)
Lemma capacity_not_32_times_power_of_two :
  rtc op_step (empty_buf [] 40) forty_grown
  ∧ length (buf (empty_buf [] 40)) = 0%Z
  ∧ capacity forty_grown = 80
  ∧ capacity forty_grown ≠ capacity (empty_buf [] 40)
  ∧ ¬ ∃ k : nat, capacity forty_grown = 32 * 2 ^ k.
Proof.
  split; [apply forty_grown_reachable|].
  split_and!; [reflexivity | reflexivity | discriminate |].
  intros [k Hk]. change (capacity forty_grown) with 80 in Hk.
  destruct k as [|[|k]]; simpl in Hk; lia.
Qed.

End DynBufSpec.

(** ** Properties of the connection adapter *)

Module TcpConnSpec.
Import Node TcpConn TcpConnFacts Samples.

(** C5.  [soRead] while a read is outstanding throws and registers
    nothing; and once [ended] is latched, on a connection without a
    latched error, every later [soRead] returns a promise that is
    already fulfilled with the empty buffer, registers no reader and
    does not resume the socket. *)
Theorem soRead_contract (w : World) (p : nat) (before after : list Action) :
  reader (conn w) = Some p →
  err (conn (run (before ++ Ev EvEnd :: after) soInit)) = None →
  soRead w = (w, Throw concurrent_read_error)
  ∧ let w' := run (before ++ Ev EvEnd :: after) soInit in
    soRead w'
    = (mkWorld (conn w') (reads w' ++ [Fulfilled []]) (writes w') (socket w'),
       Normal (length (reads w')))
    ∧ reader (conn w') = None.
Proof.
  intros Hreader Hnoerr. split.
  - unfold soRead. by rewrite Hreader.
  - intros w'.
    assert (ended (conn w') = true) as Hended.
    { unfold w'. rewrite (cons_middle (Ev EvEnd)), app_assoc, run_app.
      apply run_latches. rewrite run_snoc. simpl. unfold on_end.
      by destruct (reader (conn (run before soInit))). }
    assert (reader (conn w') = None) as Hnone.
    { apply latched_no_reader. by right. }
    split; [|done]. unfold soRead. fold w' in Hnoerr.
    by rewrite Hnone, Hnoerr, Hended.
Qed.

Lemma soRead_contract_witness :
  reader (conn reading) = Some 0
  ∧ err (conn (run ([CallRead] ++ Ev EvEnd :: [CallRead]) soInit)) = None
  ∧ soRead reading = (reading, Throw concurrent_read_error)
  ∧ soRead (run ([CallRead] ++ Ev EvEnd :: [CallRead]) soInit)
    = (mkWorld (mkConn None true None)
         [Fulfilled []; Fulfilled []; Fulfilled []] [] [Resume],
       Normal 2).
Proof.
  destruct (soRead_contract reading 0 [CallRead] [CallRead] eq_refl eq_refl)
    as [Hthrow [Hread _]].
  split_and!; [reflexivity | reflexivity | exact Hthrow | exact Hread].
Defined.

(** C8.  [soWrite] with no data rejects with its argument error, and
    [soWrite] on a connection with a latched error rejects with that
    error; in both cases nothing is passed to the socket. *)
Theorem soWrite_fails_early (w0 w : World) (data : list byte) (e : JsError) :
  err (conn w) = Some e →
  data ≠ [] →
  soWrite [] w0
  = (mkWorld (conn w0) (reads w0) (writes w0 ++ [Rejected zero_length_error])
       (socket w0), length (writes w0))
  ∧ soWrite data w
    = (mkWorld (conn w) (reads w) (writes w ++ [Rejected e]) (socket w),
       length (writes w)).
Proof.
  intros Herr Hdata. split; [done|].
  unfold soWrite. rewrite Herr.
  case_decide as Hlen; [|done].
  by apply length_zero_iff_nil in Hlen.
Qed.

Lemma soWrite_fails_early_witness :
  err (conn broken) = Some reset
  ∧ hello_line ≠ []
  ∧ soWrite [] soInit
    = (mkWorld (conn soInit) (reads soInit)
         (writes soInit ++ [Rejected zero_length_error]) (socket soInit),
       length (writes soInit))
  ∧ soWrite hello_line broken
    = (mkWorld (conn broken) (reads broken) (writes broken ++ [Rejected reset])
         (socket broken),
       length (writes broken)).
Proof.
  assert (hello_line ≠ []) as Hdata by discriminate.
  split_and!; [reflexivity | done |..];
    apply (soWrite_fails_early soInit broken hello_line reset eq_refl Hdata).
Defined.

(** C6, as the code has it.  Through any sequence of events and calls
    [err], once set, stays set and [ended], once set, stays set; while
    an error is latched, [soRead] and [soWrite] of non-empty data
    return a promise already rejected with the error that [err] holds
    at that time (the one of the latest error event); an end event
    fulfils the pending read with the empty buffer and an error event
    rejects it with the error. *)
Theorem latches_are_permanent (trace later : list Action) :
  let w := run trace soInit in
  let w' := run later w in
  (is_Some (err (conn w)) → is_Some (err (conn w')))
  ∧ (ended (conn w) = true → ended (conn w') = true)
  ∧ (∀ e, err (conn w') = Some e →
       soRead w'
       = (mkWorld (conn w') (reads w' ++ [Rejected e]) (writes w') (socket w'),
          Normal (length (reads w')))
       ∧ ∀ data, data ≠ [] →
           soWrite data w'
           = (mkWorld (conn w') (reads w') (writes w' ++ [Rejected e])
                (socket w'), length (writes w')))
  ∧ (∀ p, reader (conn w) = Some p →
       reads (on_end w).1 !! p = Some (Fulfilled [])
       ∧ ended (conn (on_end w).1) = true
       ∧ reader (conn (on_end w).1) = None
       ∧ ∀ e, reads (on_error e w).1 !! p = Some (Rejected e)
              ∧ err (conn (on_error e w).1) = Some e
              ∧ reader (conn (on_error e w).1) = None).
Proof.
  intros w w'. split_and!.
  - apply run_latches.
  - apply run_latches.
  - intros e Herr.
    assert (reader (conn w') = None) as Hnone.
    { unfold w', w. rewrite <- run_app. apply latched_no_reader.
      left. rewrite run_app. fold w. fold w'. by rewrite Herr. }
    split.
    + unfold soRead. by rewrite Hnone, Herr.
    + intros data Hdata. unfold soWrite. rewrite Herr.
      case_decide as Hlen; [|done].
      by apply length_zero_iff_nil in Hlen.
  - intros p Hp.
    destruct (run_reader_pending trace p Hp) as (Hpending & _ & _).
    fold w in Hpending.
    unfold on_end, on_error. rewrite Hp. simpl.
    split_and!; [by apply lookup_alter_pending | done..|].
    intros e. split_and!; [by apply lookup_alter_pending | done..].
Qed.

(** C6, as stated, fails: with [reset] latched, a write of no data is
    rejected with the argument error, and after a second error event
    a read is rejected with the second error. *)
Lemma latched_error_is_not_every_outcome :
  let w := run [Ev (EvError reset)] soInit in
  err (conn w) = Some reset
  ∧ writes (soWrite [] w).1 !! (soWrite [] w).2
    = Some (Rejected zero_length_error)
  ∧ zero_length_error ≠ reset
  ∧ let w2 := run [Ev (EvError epipe)] w in
    soRead w2
    = (mkWorld (conn w2) (reads w2 ++ [Rejected epipe]) (writes w2) (socket w2),
       Normal 0)
    ∧ epipe ≠ reset.
Proof. by split_and!. Qed.

(** C2, as the code has it.  [serveClient] knows neither messages
    nor a quit command: whenever it awaits a read and a non-empty
    chunk arrives, it pauses the socket, writes that chunk as it is and
    awaits the write; when the write is done it reads again.  It
    returns, and [newConn] destroys the socket, when the read gives
    the empty buffer of an end of stream. *)
Theorem serveClient_echoes_chunk (events : list Event) (p : nat)
    (data : list byte) :
  pc (serve events) = AwaitRead p →
  data ≠ [] →
  let s := serve events in
  let q := length (writes (world s)) in
  let s' := deliver (EvData data) s in
  let s'' := deliver (EvWritten q None) s' in
  socket (world s') = socket (world s) ++ [Pause; Write data q]
  ∧ pc s' = AwaitWrite q
  ∧ socket (world s'') = socket (world s') ++ [Resume]
  ∧ pc s'' = AwaitRead (length (reads (world s)))
  ∧ socket (world (deliver EvEnd s)) = socket (world s) ++ [Destroy]
  ∧ pc (deliver EvEnd s) = Returned.
Proof.
  intros Hpc Hdata s q s' s''.
  pose proof (serve_serving events) as Hs. fold s in Hs, Hpc.
  unfold serving in Hs. rewrite Hpc in Hs.
  destruct Hs as (Hreader & Hpending & Herr & Hended & Hsock).
  assert (s' = mkServer
                 (mkWorld (mkConn None false None)
                    (alter (settle (Fulfilled data)) p (reads (world s)))
                    (writes (world s) ++ [Pending])
                    (socket (world s) ++ [Pause; Write data q]))
                 (AwaitWrite q)) as Hs'.
  { unfold s', deliver, resume. rewrite Hpc. cbn [handle pc world].
    unfold on_data. rewrite Hreader. cbn [fst reads].
    rewrite (lookup_alter_pending _ _ _ Hpending).
    rewrite after_read_echoes by done. cbn [conn err ended writes socket].
    rewrite Herr, Hended, <- app_assoc. done. }
  assert (s'' = mkServer
                  (mkWorld (mkConn None false (Some (length (reads (world s)))))
                     (alter (settle (Fulfilled data)) p (reads (world s))
                      ++ [Pending])
                     (writes (world s) ++ [Fulfilled tt])
                     (socket (world s) ++ [Pause; Write data q; Resume]))
                  (AwaitRead (length (reads (world s))))) as Hs''.
  { unfold s''. rewrite Hs'. unfold deliver, resume. cbn [handle pc world].
    unfold on_written. cbn [fst writes].
    assert (alter (settle (Fulfilled tt)) q (writes (world s) ++ [Pending])
            = writes (world s) ++ [Fulfilled tt]) as ->.
    { unfold q. rewrite alter_app_r_alt by lia. by rewrite Nat.sub_diag. }
    unfold q at 1. rewrite lookup_snoc.
    unfold fuel. simpl. rewrite lookup_snoc. simpl.
    by rewrite length_alter, <- app_assoc. }
  assert (deliver EvEnd s
          = mkServer
              (mkWorld (mkConn None true None)
                 (alter (settle (Fulfilled [])) p (reads (world s)))
                 (writes (world s))
                 (socket (world s) ++ [Destroy]))
              Returned) as Hend.
  { unfold deliver, resume. rewrite Hpc. cbn [handle pc world].
    unfold on_end. rewrite Hreader. cbn [fst reads].
    rewrite (lookup_alter_pending _ _ _ Hpending).
    unfold after_read, finish. simpl. rewrite decide_False by done.
    by rewrite Herr. }
  rewrite Hs'', Hend. rewrite Hs'. simpl.
  split_and!; try done. by rewrite <- app_assoc.
Qed.

Lemma serveClient_echoes_chunk_witness :
  pc (serve []) = AwaitRead 0
  ∧ quit_line ≠ []
  ∧ socket (world (deliver (EvData quit_line) (serve [])))
    = socket (world (serve [])) ++ [Pause; Write quit_line 0]
  ∧ pc (deliver (EvData quit_line) (serve [])) = AwaitWrite 0.
Proof.
  assert (quit_line ≠ []) as Hdata by discriminate.
  destruct (serveClient_echoes_chunk [] 0 quit_line eq_refl Hdata)
    as (Hsock & Hpc & _).
  split_and!; [reflexivity | done | exact Hsock | exact Hpc].
Defined.

(** C2, as stated, fails: the line [quit] is written back as it is,
    no [Bye.] is sent, and after the write the server reads again
    with the socket not destroyed; the line [Hello] is written back
    without the prefix [Echo: ]. *)
Lemma quit_is_only_echoed :
  socket (world (serve [EvData quit_line]))
    = [Resume; Pause; Write quit_line 0]
  ∧ quit_line ≠ bye_line
  ∧ pc (serve [EvData quit_line; EvWritten 0 None]) = AwaitRead 1
  ∧ socket (world (serve [EvData quit_line; EvWritten 0 None]))
    = [Resume; Pause; Write quit_line 0; Resume]
  ∧ socket (world (serve [EvData hello_line]))
    = [Resume; Pause; Write hello_line 0]
  ∧ hello_line ≠ echo_prefix ++ hello_line.
Proof. by split_and!. Qed.

End TcpConnSpec.

(** ** More facts about the growable buffer *)

Module DynBufMoreFacts.
Import Node NodeFacts DynBufs DynBufFacts Framing.

(** *** Framing is unique *)

Lemma first_delimiter_unique (body body' rest rest' : list byte) :
  x0a ∉ body → x0a ∉ body' →
  body ++ x0a :: rest = body' ++ x0a :: rest' →
  body = body' ∧ rest = rest'.
Proof.
  revert body'. induction body as [|b body IH]; intros [|b' body'] Hb Hb' Heq;
    simpl in Heq.
  - by simplify_eq.
  - simplify_eq. exfalso. apply Hb'. by left.
  - simplify_eq. exfalso. apply Hb. by left.
  - apply not_elem_of_cons in Hb as [_ Hb].
    apply not_elem_of_cons in Hb' as [_ Hb'].
    simplify_eq. destruct (IH body' Hb Hb' H0) as [-> ->]. done.
Qed.

Lemma framing_unique (ms ms' : list (list byte)) (r r' : list byte) :
  Forall is_message ms → Forall is_message ms' →
  x0a ∉ r → x0a ∉ r' →
  concat ms ++ r = concat ms' ++ r' →
  ms = ms' ∧ r = r'.
Proof.
  intros Hms. revert ms'.
  induction Hms as [|m ms [body [-> Hbody]] _ IH]; intros ms' Hms' Hr Hr' Heq.
  - destruct Hms' as [|m' ms' [body' [-> Hbody']] _]; [done|].
    exfalso. apply Hr. simpl in Heq. rewrite Heq.
    rewrite <- !app_assoc. apply elem_of_app. right. by left.
  - destruct Hms' as [|m' ms' [body' [-> Hbody']] Hms'].
    + exfalso. apply Hr'. simpl in Heq. rewrite <- Heq.
      rewrite <- !app_assoc. apply elem_of_app. right. by left.
    + simpl in Heq. rewrite <- !app_assoc in Heq. simpl in Heq.
      apply first_delimiter_unique in Heq as [-> Heq]; [|done..].
      destruct (IH ms' Hms' Hr Hr' Heq) as [-> ->]. done.
Qed.

Lemma count_delims_le (s : list byte) : count_delims s ≤ List.length s.
Proof. unfold count_delims. apply length_filter. Qed.

(** *** Draining until [null] *)

Lemma cut_until_null_S n m :
  cut_until_null (S n) m =
  match cutMessage m with
  | (m1, Normal None) => (m1, Normal [])
  | (m1, Normal (Some msg)) =>
      match cut_until_null n m1 with
      | (m2, Normal later) => (m2, Normal (bytes_of (heap m1) msg :: later))
      | (m2, Throw e) => (m2, Throw e)
      end
  | (m1, Throw e) => (m1, Throw e)
  end.
Proof.
  change (cut_until_null (S n) m) with
    ((r ← cutMessage ;
      match r with
      | None => mret []
      | Some msg =>
          seen ← (λ m, (m, Normal (bytes_of (heap m) msg))) ;
          later ← cut_until_null n ;
          mret (seen :: later)
      end) m).
  unfold mbind, mret, M_bind, M_ret.
  destruct (cutMessage m) as [m1 [[msg|]|e]]; [|done..].
  by destruct (cut_until_null n m1) as [m2 [later|e]].
Qed.

(** With more fuel than delimiters the loop ends on [null]: it returns
    every complete message and leaves the delimiter-free rest. *)
Lemma cut_until_null_spec fuel : ∀ m,
  wf m → count_delims (valid m) < fuel →
  ∃ m' msgs,
    cut_until_null fuel m = (m', Normal msgs)
    ∧ wf m'
    ∧ Forall is_message msgs
    ∧ concat msgs ++ valid m' = valid m
    ∧ (x0a ∉ valid m')
    ∧ data (buf m') = data (buf m).
Proof.
  induction fuel as [|fuel IH]; intros m Hwf Hfuel; [lia|].
  rewrite cut_until_null_S.
  destruct (decide (x0a ∈ valid m)) as [Hin|Hnot].
  - apply list_elem_of_split_l in Hin as (body & rest & Hsplit & Hbody).
    destruct (cutMessage_some m body rest Hwf Hsplit Hbody)
      as (m1 & msg & -> & Hwf1 & Hmsg & Hv1 & Hd1 & _).
    rewrite Hsplit, count_delims_first in Hfuel by done.
    destruct (IH m1 Hwf1) as (m' & msgs & -> & Hwf' & Hall & Hcat & Hrem & Hd);
      [rewrite Hv1; lia|].
    exists m', ((body ++ [x0a]) :: msgs). rewrite Hmsg.
    split_and!; try done.
    + constructor; [by exists body | done].
    + simpl. rewrite <- !app_assoc, Hcat, Hv1, Hsplit. done.
    + by rewrite Hd.
  - rewrite cutMessage_none by done.
    exists m, []. by split_and!.
Qed.

Lemma drain_all_spec m :
  wf m →
  ∃ m' msgs,
    drain_all m = (m', Normal msgs)
    ∧ wf m'
    ∧ Forall is_message msgs
    ∧ concat msgs ++ valid m' = valid m
    ∧ (x0a ∉ valid m')
    ∧ data (buf m') = data (buf m).
Proof.
  intros Hwf. unfold drain_all. apply cut_until_null_spec; [done|].
  pose proof (count_delims_le (valid m)).
  rewrite valid_length in H by done. lia.
Qed.

Lemma feed_spec chunks : ∀ m,
  wf m → x0a ∉ valid m →
  ∃ m' msgs,
    feed chunks m = (m', Normal msgs)
    ∧ wf m'
    ∧ Forall is_message msgs
    ∧ concat msgs ++ valid m' = valid m ++ concat chunks
    ∧ x0a ∉ valid m'.
Proof.
  induction chunks as [|c cs IH]; intros m Hwf Hnone.
  - exists m, []. simpl. rewrite app_nil_r. by split_and!.
  - change (feed (c :: cs) m) with
      ((push_bytes c ;; now ← drain_all ; later ← feed cs ;
        mret (now ++ later)) m).
    unfold mbind, mret, M_bind, M_ret.
    destruct (push_bytes_spec m c Hwf) as (m1 & -> & Hwf1 & Hv1 & _).
    destruct (drain_all_spec m1 Hwf1) as (m2 & now & -> & Hwf2 & Hnow & Hcat2 & Hrem2 & _).
    destruct (IH m2 Hwf2 Hrem2) as (m' & later & -> & Hwf' & Hlater & Hcat & Hrem).
    exists m', (now ++ later). split_and!; try done.
    + by apply Forall_app.
    + rewrite concat_app, <- app_assoc, Hcat. simpl.
      rewrite !app_assoc. f_equal. by rewrite Hcat2, Hv1.
Qed.

(** [source.copy(target, 0, 0)] never throws. *)
Lemma copy_from_start_returns st (src tgt : Buffer) st' c :
  copy src tgt 0 0 st = (st', c) → ∃ n, c = Normal n.
Proof.
  unfold copy. simpl.
  destruct (Z.ltb_spec (Z.of_nat (blength src)) 0) as [?|_]; [lia|].
  simpl. destruct (_ || _); intros; simplify_eq; by eexists.
Qed.

(** *** The two paths of [bufPush] *)

(** Enough room: the storage stays the same [Buffer], nothing is
    allocated and only the array of the storage is written. *)
Lemma bufPush_fits m chunk :
  wf m → view_ok (heap m) chunk →
  let newLen := (length (buf m) + Z.of_nat (blength chunk))%Z in
  (newLen ≤ Z.of_nat (capacity m))%Z →
  ∃ st',
    bufPush chunk m = (mkMem st' (mkDynBuf (data (buf m)) newLen), Normal tt)
    ∧ same_shape (heap m) st'
    ∧ only_touches (base (data (buf m))) (heap m) st'.
Proof.
  intros [Hdata Hlen] Hchunk newLen Hroom. unfold capacity in *.
  destruct m as [st [cur len]]. simpl in *.
  assert (newLen = len + Z.of_nat (blength chunk))%Z as HnewLen by done.
  clearbody newLen.
  unfold bufPush. run. rewrite <- HnewLen.
  destruct (Z.ltb_spec (Z.of_nat (blength cur)) newLen) as [?|_]; [lia|].
  simpl.
  destruct (copy_fits st chunk cur len) as (st' & n & -> & Hshape & Htouch & _);
    [done|done|lia|lia|].
  simpl. by exists st'.
Qed.

(** No room: a new array of the grown capacity becomes the storage
    and no array that existed before is written, the old storage
    included. *)
Lemma bufPush_grows m chunk :
  wf m → view_ok (heap m) chunk →
  let newLen := (length (buf m) + Z.of_nat (blength chunk))%Z in
  let cap := grown_capacity (Z.of_nat (capacity m)) newLen in
  (Z.of_nat (capacity m) < newLen)%Z →
  ∃ st',
    bufPush chunk m
    = (mkMem st' (mkDynBuf (mkBuffer (List.length (heap m)) 0 (Z.to_nat cap))
                    newLen), Normal tt)
    ∧ List.length st' = S (List.length (heap m))
    ∧ ∀ a, a < List.length (heap m) → backing st' a = backing (heap m) a.
Proof.
  intros [Hdata Hlen] Hchunk newLen cap Hgrow. unfold capacity in *.
  destruct m as [st [cur len]]. simpl in *.
  assert (newLen = len + Z.of_nat (blength chunk))%Z as HnewLen by done.
  clearbody newLen.
  unfold bufPush. run. rewrite <- HnewLen.
  destruct (Z.ltb_spec (Z.of_nat (blength cur)) newLen) as [_|?]; [|lia].
  pose proof (grown_capacity_enough (Z.of_nat (blength cur)) newLen) as Hcap.
  fold cap in Hcap |- *.
  unfold alloc. destruct (Z.ltb_spec cap 0) as [?|_]; [lia|]. simpl.
  set (grown := mkBuffer (List.length st) 0 (Z.to_nat cap)).
  set (st1 := st ++ [replicate (Z.to_nat cap) x00]).
  assert (view_ok st1 grown) as Hgrown.
  { apply view_ok_fresh. rewrite length_replicate. lia. }
  assert (view_ok st1 cur) as Hcur1 by by apply view_ok_app.
  assert (view_ok st1 chunk) as Hchunk1 by by apply view_ok_app.
  destruct (copy_fits st1 cur grown 0) as (st2 & n & -> & Hshape & Htouch & _);
    [done|done|lia|simpl; lia|].
  simpl.
  assert (view_ok st2 grown) as Hgrown2 by by apply (same_shape_view_ok st1).
  assert (view_ok st2 chunk) as Hchunk2 by by apply (same_shape_view_ok st1).
  destruct (copy_fits st2 chunk grown len) as (st3 & n' & -> & Hshape' & Htouch' & _);
    [done|done|lia|simpl; lia|].
  simpl. exists st3. split; [done|].
  destruct Hshape as [Hl1 _], Hshape' as [Hl2 _].
  destruct Htouch as [_ Ho1], Htouch' as [_ Ho2]. simpl in *.
  split.
  - rewrite Hl2, Hl1. unfold st1. rewrite length_app. simpl. lia.
  - intros a Ha. rewrite Ho2, Ho1 by lia. by apply backing_app_lt.
Qed.

(** The grown capacity is the first doubling of [max(capacity, 32)]
    that holds the new length. *)
Lemma double_until_least fuel : ∀ cap newLen (j : nat),
  (0 < cap)%Z → (newLen ≤ cap * 2 ^ Z.of_nat j)%Z →
  (double_until fuel cap newLen ≤ cap * 2 ^ Z.of_nat j)%Z.
Proof.
  induction fuel as [|fuel IH]; intros cap newLen j Hcap Hj; simpl.
  - assert (0 < 2 ^ Z.of_nat j)%Z by (apply Z.pow_pos_nonneg; lia). nia.
  - destruct (Z.ltb_spec cap newLen) as [Hlt|Hge].
    + destruct j as [|j]; [simpl in Hj; lia|].
      rewrite Nat2Z.inj_succ, Z.pow_succ_r in * by lia.
      replace (cap * (2 * 2 ^ Z.of_nat j))%Z
        with (cap * 2 * 2 ^ Z.of_nat j)%Z in * by lia.
      apply IH; lia.
    + assert (0 < 2 ^ Z.of_nat j)%Z by (apply Z.pow_pos_nonneg; lia). nia.
Qed.

(** The second copy of [bufPush], reallocating, on a well-formed
    buffer. *)
Lemma Variant2_grows m chunk :
  wf m → view_ok (heap m) chunk →
  let newLen := (length (buf m) + Z.of_nat (blength chunk))%Z in
  (Z.of_nat (capacity m) < newLen)%Z →
  ∃ m',
    Variant2.bufPush chunk m = (m', Normal tt)
    ∧ wf m'
    ∧ length (buf m') = newLen
    ∧ valid m'
      = bytes_of (heap m) (data (buf m))
        ++ replicate (Z.to_nat newLen - capacity m) x00.
Proof.
  intros Hwf Hchunk newLen Hgrow.
  destruct (Variant2_growth_drops_chunk m chunk Hwf Hchunk Hgrow)
    as (m' & Hrun & Hlen & Hvalid).
  exists m'. split_and!; try done.
  revert Hrun. clear Hvalid.
  destruct Hwf as [Hdata Hl]. unfold capacity in *.
  destruct m as [st [cur len]]. simpl in *.
  assert (newLen = len + Z.of_nat (blength chunk))%Z as HnewLen by done.
  clearbody newLen.
  unfold Variant2.bufPush. run. rewrite <- HnewLen.
  destruct (Z.ltb_spec (Z.of_nat (blength cur)) newLen) as [_|?]; [|lia].
  pose proof (grown_capacity_enough (Z.of_nat (blength cur)) newLen) as Hcap.
  set (cap := grown_capacity (Z.of_nat (blength cur)) newLen) in *.
  unfold alloc. destruct (Z.ltb_spec cap 0) as [?|_]; [lia|]. simpl.
  set (grown := mkBuffer (List.length st) 0 (Z.to_nat cap)).
  set (st1 := st ++ [replicate (Z.to_nat cap) x00]).
  assert (view_ok st1 grown) as Hgrown.
  { apply view_ok_fresh. rewrite length_replicate. lia. }
  assert (view_ok st1 cur) as Hcur1 by by apply view_ok_app.
  destruct (copy_fits st1 cur grown 0) as (st2 & n & -> & Hshape & _ & _);
    [done|done|lia|simpl; lia|].
  simpl. unfold copy. simpl.
  destruct (Z.ltb_spec cap 0) as [?|_]; [lia|].
  destruct (Z.ltb_spec (Z.of_nat (blength chunk)) 0) as [?|_]; [lia|].
  destruct (Z.leb_spec (Z.of_nat (Z.to_nat cap)) cap) as [_|?]; [|lia].
  simpl. intros Hrun. simplify_eq.
  split; unfold capacity; simpl; [by apply (same_shape_view_ok st1) | lia].
Qed.

End DynBufMoreFacts.

(** ** Further properties of the growable buffer *)

Module DynBufExtra.
Import Node NodeFacts DynBufs DynBufFacts Framing DynBufMoreFacts.
Import Samples MoreSamples.

Ltac by_computation := apply (bool_decide_unpack _); vm_compute; exact I.

Ltac concrete_wf m :=
  let d := eval vm_compute in m in change m with d;
  unfold wf, view_ok, backing, capacity; simpl; lia.

(** X1.  [bufPush] on a well-formed buffer returns, keeps the buffer
    well formed, adds the length of the chunk to [length] and puts the
    bytes of the chunk, as they were at the call, behind the valid
    bytes; this holds for every chunk, also one that is a view of the
    storage the buffer writes to. *)
Theorem bufPush_appends (m : Mem) (chunk : Buffer) :
  wf m →
  view_ok (heap m) chunk →
  ∃ m',
    bufPush chunk m = (m', Normal tt)
    ∧ wf m'
    ∧ length (buf m') = (length (buf m) + Z.of_nat (blength chunk))%Z
    ∧ valid m' = valid m ++ bytes_of (heap m) chunk
    ∧ ∀ b, view_ok (heap m) b → view_ok (heap m') b.
Proof.
  intros Hwf Hchunk.
  destruct (bufPush_spec m chunk Hwf Hchunk)
    as (m' & Hrun & Hwf' & Hlen & Hvalid & _ & Hviews).
  by exists m'.
Qed.

Lemma bufPush_appends_witness :
  wf holding_two_lines
  ∧ view_ok (heap holding_two_lines) own_storage
  ∧ ∃ m',
      bufPush own_storage holding_two_lines = (m', Normal tt)
      ∧ wf m'
      ∧ length (buf m')
        = (length (buf holding_two_lines) + Z.of_nat (blength own_storage))%Z
      ∧ valid m'
        = valid holding_two_lines ++ bytes_of (heap holding_two_lines) own_storage
      ∧ ∀ b, view_ok (heap holding_two_lines) b → view_ok (heap m') b.
Proof.
  assert (wf holding_two_lines) as Hwf by concrete_wf holding_two_lines.
  assert (view_ok (heap holding_two_lines) own_storage) as Hchunk.
  { unfold view_ok, backing. vm_compute. lia. }
  split_and!; [done..|].
  exact (bufPush_appends holding_two_lines own_storage Hwf Hchunk).
Defined.

(** X2.  What [bufPush] does to the storage.  When the new length fits
    the capacity, the storage stays the same [Buffer], nothing is
    allocated and no other array changes.  When it does not fit, the
    storage becomes a new array, no array that existed before changes
    (the old storage keeps its bytes), and the new capacity is the
    least [max(capacity, 32) * 2^k] that holds the new length. *)
Theorem bufPush_storage (m : Mem) (chunk : Buffer) :
  wf m →
  view_ok (heap m) chunk →
  let newLen := (length (buf m) + Z.of_nat (blength chunk))%Z in
  let start := Z.max (Z.of_nat (capacity m)) 32 in
  ∃ m',
    bufPush chunk m = (m', Normal tt)
    ∧ ((newLen ≤ Z.of_nat (capacity m))%Z →
       data (buf m') = data (buf m)
       ∧ List.length (heap m') = List.length (heap m)
       ∧ ∀ a, a ≠ base (data (buf m)) →
              backing (heap m') a = backing (heap m) a)
    ∧ ((Z.of_nat (capacity m) < newLen)%Z →
       base (data (buf m')) = List.length (heap m)
       ∧ List.length (heap m') = S (List.length (heap m))
       ∧ (∀ a, a < List.length (heap m) →
               backing (heap m') a = backing (heap m) a)
       ∧ (newLen ≤ Z.of_nat (capacity m'))%Z
       ∧ (∃ k : nat, Z.of_nat (capacity m') = (start * 2 ^ Z.of_nat k)%Z)
       ∧ ∀ j : nat, (newLen ≤ start * 2 ^ Z.of_nat j)%Z →
                    (Z.of_nat (capacity m') ≤ start * 2 ^ Z.of_nat j)%Z).
Proof.
  intros Hwf Hchunk newLen start.
  destruct (Z.le_gt_cases newLen (Z.of_nat (capacity m))) as [Hfits|Hgrows].
  - destruct (bufPush_fits m chunk Hwf Hchunk Hfits)
      as (st' & Hrun & [Hl _] & [_ Hother]).
    eexists. split; [exact Hrun|]. simpl. split; [|intros; lia].
    intros _. split_and!; [done | done | exact Hother].
  - assert (Z.of_nat (capacity m) < newLen)%Z as Hlt by lia.
    destruct (bufPush_grows m chunk Hwf Hchunk Hlt) as (st' & Hrun & Hl & Hold).
    pose proof (grown_capacity_enough (Z.of_nat (capacity m)) newLen) as Hcap.
    remember (grown_capacity (Z.of_nat (capacity m)) newLen) as g eqn:Hg.
    fold newLen in Hrun. rewrite <- Hg in Hrun.
    exists (mkMem st' (mkDynBuf (mkBuffer (List.length (heap m)) 0 (Z.to_nat g))
                         newLen)).
    split; [exact Hrun|]. split; [intros; lia|]. intros _.
    assert (Z.of_nat (capacity
              (mkMem st' (mkDynBuf (mkBuffer (List.length (heap m)) 0
                                      (Z.to_nat g)) newLen))) = g) as ->.
    { unfold capacity. simpl. lia. }
    split_and!; [done | done | exact Hold | lia | |].
    + destruct (grown_capacity_pow2 (Z.of_nat (capacity m)) newLen) as [k Hk].
      exists k. rewrite Hg. exact Hk.
    + intros j Hj. rewrite Hg. unfold grown_capacity. fold start.
      apply double_until_least; [unfold start; lia | done].
Qed.

Lemma bufPush_storage_witness :
  wf one_byte_arrived
  ∧ view_ok (heap one_byte_arrived) the_byte
  ∧ ∃ m',
      bufPush the_byte one_byte_arrived = (m', Normal tt)
      ∧ capacity one_byte_arrived = 0
      ∧ capacity m' = 32
      ∧ base (data (buf m')) = List.length (heap one_byte_arrived).
Proof.
  assert (wf one_byte_arrived) as Hwf by concrete_wf one_byte_arrived.
  assert (view_ok (heap one_byte_arrived) the_byte) as Hchunk.
  { unfold view_ok, backing. vm_compute. lia. }
  split_and!; [done..|].
  destruct (bufPush_storage one_byte_arrived the_byte Hwf Hchunk)
    as (m' & Hrun & _ & Hgrows).
  exists m'. split; [exact Hrun|]. split; [reflexivity|].
  assert (m' = (bufPush the_byte one_byte_arrived).1) as -> by by rewrite Hrun.
  split; reflexivity.
Defined.

(** X3.  [bufPush] of an empty chunk changes nothing at all: neither
    the fields of the buffer nor any array. *)
Theorem bufPush_empty_chunk (m : Mem) (chunk : Buffer) :
  wf m → blength chunk = 0 → bufPush chunk m = (m, Normal tt).
Proof.
  intros [_ Hlen] Hempty. unfold capacity in Hlen.
  destruct m as [st [cur len]]. simpl in *.
  unfold bufPush. run. rewrite Hempty. simpl. rewrite Z.add_0_r.
  destruct (Z.ltb_spec (Z.of_nat (blength cur)) len) as [?|_]; [lia|].
  simpl. unfold copy. rewrite Hempty. simpl.
  destruct (Z.ltb_spec len 0) as [?|_]; [lia|].
  simpl. by rewrite orb_true_r.
Qed.

Lemma bufPush_empty_chunk_witness :
  wf holding_two_lines
  ∧ blength (mkBuffer 0 0 0) = 0
  ∧ bufPush (mkBuffer 0 0 0) holding_two_lines = (holding_two_lines, Normal tt).
Proof.
  assert (wf holding_two_lines) as Hwf by concrete_wf holding_two_lines.
  split_and!; [done | reflexivity |].
  exact (bufPush_empty_chunk holding_two_lines (mkBuffer 0 0 0) Hwf eq_refl).
Defined.

(** X4.  Pops compose: discarding [a] bytes and then [b] bytes, within
    the valid bytes, leaves the same valid bytes, the same length and
    the same storage [Buffer] as discarding [a + b] bytes at once. *)
Theorem bufPop_composes (m : Mem) (a b : Z) :
  wf m →
  (0 ≤ a)%Z → (0 ≤ b)%Z → (a + b ≤ length (buf m))%Z →
  ∃ m1 m2 m12,
    bufPop a m = (m1, Normal tt)
    ∧ bufPop b m1 = (m2, Normal tt)
    ∧ bufPop (a + b) m = (m12, Normal tt)
    ∧ valid m2 = drop (Z.to_nat (a + b)) (valid m)
    ∧ valid m12 = valid m2
    ∧ buf m12 = buf m2.
Proof.
  intros Hwf Ha Hb Hab.
  destruct (bufPop_spec m a Hwf) as (m1 & Hr1 & Hwf1 & Hl1 & Hv1 & Hd1 & _); [lia|].
  destruct (bufPop_spec m1 b Hwf1) as (m2 & Hr2 & Hwf2 & Hl2 & Hv2 & Hd2 & _); [lia|].
  destruct (bufPop_spec m (a + b) Hwf) as (m12 & Hr12 & _ & Hl12 & Hv12 & Hd12 & _);
    [lia|].
  exists m1, m2, m12. split_and!; try done.
  - rewrite Hv2, Hv1, drop_drop. f_equal. lia.
  - rewrite Hv12, Hv2, Hv1, drop_drop. f_equal. lia.
  - destruct (buf m12), (buf m2). simpl in *. f_equal; [congruence | lia].
Qed.

Lemma bufPop_composes_witness :
  wf holding_two_lines
  ∧ (0 ≤ 1)%Z ∧ (0 ≤ 2)%Z ∧ (1 + 2 ≤ length (buf holding_two_lines))%Z
  ∧ ∃ m1 m2 m12,
      bufPop 1 holding_two_lines = (m1, Normal tt)
      ∧ bufPop 2 m1 = (m2, Normal tt)
      ∧ bufPop (1 + 2) holding_two_lines = (m12, Normal tt)
      ∧ valid m2 = drop (Z.to_nat (1 + 2)) (valid holding_two_lines)
      ∧ valid m12 = valid m2
      ∧ buf m12 = buf m2.
Proof.
  assert (wf holding_two_lines) as Hwf by concrete_wf holding_two_lines.
  assert (1 + 2 ≤ length (buf holding_two_lines))%Z as Hab by (vm_compute; discriminate).
  split_and!; [done | lia | lia | done |].
  apply (bufPop_composes holding_two_lines 1 2 Hwf); [lia | lia | done].
Defined.

(** X5.  [bufPop] does not check its argument.  Asked for more than
    the valid bytes it returns normally, writes to no array and leaves
    a negative [length]; from then on every [bufPush] throws, the
    range error of [copy] for a negative target offset, with [length]
    still negative. *)
Theorem bufPop_unchecked (m : Mem) (n : Z) (chunk : Buffer) :
  wf m →
  (length (buf m) < n)%Z →
  let popped := mkMem (heap m) (mkDynBuf (data (buf m)) (length (buf m) - n)) in
  bufPop n m = (popped, Normal tt)
  ∧ (length (buf popped) < 0)%Z
  ∧ ∃ m',
      bufPush chunk popped = (m', Throw (RangeError "targetStart"))
      ∧ length (buf m') = length (buf popped).
Proof.
  intros [Hdata Hlen] Hn popped. unfold capacity in Hlen.
  destruct m as [st [cur len]]. simpl in *. split_and!.
  - unfold bufPop. run. unfold copyWithin.
    assert (rel_index (blength cur) len = Z.to_nat len) as ->.
    { unfold rel_index. destruct (Z.ltb_spec len 0); lia. }
    assert (Z.to_nat len ≤ rel_index (blength cur) n) as Hfrom.
    { unfold rel_index. destruct (Z.ltb_spec n 0); lia. }
    rewrite decide_False by lia. done.
  - simpl. lia.
  - unfold popped, bufPush. run.
    set (newLen := (len - n + Z.of_nat (blength chunk))%Z).
    destruct (Z.ltb_spec (Z.of_nat (blength cur)) newLen) as [Hgrow|Hfits].
    + pose proof (grown_capacity_ge (Z.of_nat (blength cur)) newLen) as Hcap.
      unfold alloc.
      destruct (Z.ltb_spec (grown_capacity (Z.of_nat (blength cur)) newLen) 0)
        as [?|_]; [lia|].
      simpl.
      destruct (copy cur _ 0 0 _) as [st2 r] eqn:Hcopy.
      destruct (copy_from_start_returns _ _ _ _ _ Hcopy) as [k ->].
      simpl. unfold copy.
      destruct (Z.ltb_spec (len - n) 0) as [_|?]; [|lia].
      simpl. by eexists.
    + simpl. unfold copy.
      destruct (Z.ltb_spec (len - n) 0) as [_|?]; [|lia].
      simpl. by eexists.
Qed.

Lemma bufPop_unchecked_witness :
  wf holding_two_lines
  ∧ (length (buf holding_two_lines) < 5)%Z
  ∧ bufPop 5 holding_two_lines
    = (mkMem (heap holding_two_lines)
         (mkDynBuf (data (buf holding_two_lines)) (-1)), Normal tt)
  ∧ ∃ m',
      bufPush own_storage
        (mkMem (heap holding_two_lines)
           (mkDynBuf (data (buf holding_two_lines)) (-1)))
      = (m', Throw (RangeError "targetStart"))
      ∧ length (buf m') = (-1)%Z.
Proof.
  assert (wf holding_two_lines) as Hwf by concrete_wf holding_two_lines.
  assert (length (buf holding_two_lines) < 5)%Z as Hn by (vm_compute; reflexivity).
  destruct (bufPop_unchecked holding_two_lines 5 own_storage Hwf Hn)
    as (Hpop & _ & Hpush).
  split_and!; [done | done | exact Hpop | exact Hpush].
Defined.

(** X6.  What a successful [cutMessage] accounts for.  The message and
    the valid bytes left behind are together the bytes that were valid;
    [length] goes down by the length of the message; the storage is
    the same [Buffer] (same capacity); and the message is the one new
    array of the heap. *)
Theorem cutMessage_accounts (m m' : Mem) (msg : Buffer) :
  wf m →
  cutMessage m = (m', Normal (Some msg)) →
  wf m'
  ∧ valid m = bytes_of (heap m') msg ++ valid m'
  ∧ is_message (bytes_of (heap m') msg)
  ∧ length (buf m') = (length (buf m) - Z.of_nat (blength msg))%Z
  ∧ data (buf m') = data (buf m)
  ∧ base msg = List.length (heap m)
  ∧ List.length (heap m') = S (List.length (heap m)).
Proof.
  intros Hwf Hcut.
  destruct (decide (x0a ∈ valid m)) as [Hin|Hnot];
    [|rewrite cutMessage_none in Hcut by done; simplify_eq].
  apply list_elem_of_split_l in Hin as (body & rest & Hsplit & Hbody).
  destruct (cutMessage_some m body rest Hwf Hsplit Hbody)
    as (m1 & msg1 & Hcut1 & Hwf1 & Hmsg & Hv1 & Hd1 & Hbase & Hok).
  assert (m1 = m' ∧ msg1 = msg) as [-> ->]
    by (rewrite Hcut in Hcut1; by simplify_eq).
  destruct (cutMessage_result m m' msg Hcut) as (_ & _ & Hheap).
  pose proof (valid_length m Hwf) as Hl.
  pose proof (valid_length m' Hwf1) as Hl1.
  pose proof (length_bytes_of _ _ Hok) as Hlm.
  rewrite Hmsg, length_app in Hlm. simpl in Hlm.
  rewrite Hsplit, length_app in Hl. simpl in Hl. rewrite Hv1 in Hl1.
  destruct Hwf as [_ Hlen], Hwf1 as [Hdata1 Hlen1].
  split_and!; try done.
  - rewrite Hmsg, Hv1, Hsplit, <- app_assoc. done.
  - by exists body.
  - lia.
Qed.

Lemma cutMessage_accounts_witness :
  wf holding_two_lines
  ∧ cutMessage holding_two_lines = (after_first_cut, Normal (Some first_line))
  ∧ valid holding_two_lines
    = bytes_of (heap after_first_cut) first_line ++ valid after_first_cut
  ∧ length (buf after_first_cut)
    = (length (buf holding_two_lines) - Z.of_nat (blength first_line))%Z.
Proof.
  assert (wf holding_two_lines) as Hwf by concrete_wf holding_two_lines.
  assert (cutMessage holding_two_lines
          = (after_first_cut, Normal (Some first_line))) as Hcut
    by (vm_compute; reflexivity).
  destruct (cutMessage_accounts holding_two_lines after_first_cut first_line
              Hwf Hcut) as (_ & Hsplit & _ & Hlen & _).
  by split_and!.
Defined.

(** X7.  The second copy of [bufPush] against the first.  When the new
    length fits the capacity the two do the same.  When it does not,
    the second returns with the new length, but its valid bytes are
    the whole old storage followed by zeros: not one byte of the chunk
    is stored. *)
Theorem Variant2_against_first (m : Mem) (chunk : Buffer) :
  wf m →
  view_ok (heap m) chunk →
  let newLen := (length (buf m) + Z.of_nat (blength chunk))%Z in
  ((newLen ≤ Z.of_nat (capacity m))%Z →
   Variant2.bufPush chunk m = bufPush chunk m)
  ∧ ((Z.of_nat (capacity m) < newLen)%Z →
     ∃ m',
       Variant2.bufPush chunk m = (m', Normal tt)
       ∧ wf m'
       ∧ length (buf m') = newLen
       ∧ valid m'
         = bytes_of (heap m) (data (buf m))
           ++ replicate (Z.to_nat newLen - capacity m) x00).
Proof.
  intros Hwf Hchunk newLen. split.
  - intros Hfits. unfold Variant2.bufPush, bufPush, capacity in *. run.
    fold newLen.
    by destruct (Z.ltb_spec (Z.of_nat (blength (data (buf m)))) newLen);
      [lia|].
  - intros Hgrows. by apply Variant2_grows.
Qed.

Lemma Variant2_against_first_witness :
  wf one_byte_arrived
  ∧ view_ok (heap one_byte_arrived) the_byte
  ∧ ∃ m',
      Variant2.bufPush the_byte one_byte_arrived = (m', Normal tt)
      ∧ valid m' = [x00]
      ∧ bytes_of (heap one_byte_arrived) the_byte = [x61].
Proof.
  assert (wf one_byte_arrived) as Hwf by concrete_wf one_byte_arrived.
  assert (view_ok (heap one_byte_arrived) the_byte) as Hchunk.
  { unfold view_ok, backing. vm_compute. lia. }
  split_and!; [done..|].
  destruct (Variant2_against_first one_byte_arrived the_byte Hwf Hchunk)
    as [_ Hgrows].
  destruct Hgrows as (m' & Hrun & _ & _ & Hvalid); [vm_compute; reflexivity|].
  exists m'. by split_and!.
Defined.

(** X8.  A message can be lost in the second copy.  If a push has to
    reallocate and the old storage holds no delimiter, then with the
    first [bufPush] a chunk that holds a delimiter is followed by a
    successful [cutMessage], while with the second [bufPush] the same
    chunk is followed by [null]. *)
Theorem Variant2_loses_messages (m : Mem) (chunk : Buffer) :
  wf m →
  view_ok (heap m) chunk →
  (Z.of_nat (capacity m) < length (buf m) + Z.of_nat (blength chunk))%Z →
  x0a ∉ bytes_of (heap m) (data (buf m)) →
  x0a ∈ bytes_of (heap m) chunk →
  (∃ m1 m1' msg,
     bufPush chunk m = (m1, Normal tt)
     ∧ cutMessage m1 = (m1', Normal (Some msg)))
  ∧ (∃ m2,
       Variant2.bufPush chunk m = (m2, Normal tt)
       ∧ cutMessage m2 = (m2, Normal None)).
Proof.
  intros Hwf Hchunk Hgrows Hstorage Hdelim. split.
  - destruct (bufPush_spec m chunk Hwf Hchunk) as (m1 & Hrun & Hwf1 & _ & Hv1 & _).
    assert (x0a ∈ valid m1) as Hin.
    { rewrite Hv1. apply elem_of_app. by right. }
    apply list_elem_of_split_l in Hin as (body & rest & Hsplit & Hbody).
    destruct (cutMessage_some m1 body rest Hwf1 Hsplit Hbody)
      as (m1' & msg & Hcut & _).
    by exists m1, m1', msg.
  - destruct (Variant2_grows m chunk Hwf Hchunk Hgrows)
      as (m2 & Hrun & Hwf2 & _ & Hv2).
    exists m2. split; [done|]. apply cutMessage_none; [done|].
    rewrite Hv2, not_elem_of_app. split; [done|].
    intros [Hzero _]%elem_of_replicate. discriminate.
Qed.

Lemma Variant2_loses_messages_witness :
  wf (receive [nl] (empty_buf [] 0)).1
  ∧ view_ok (heap (receive [nl] (empty_buf [] 0)).1) the_byte
  ∧ (∃ m1 m1' msg,
       bufPush the_byte (receive [nl] (empty_buf [] 0)).1 = (m1, Normal tt)
       ∧ cutMessage m1 = (m1', Normal (Some msg)))
  ∧ (∃ m2,
       Variant2.bufPush the_byte (receive [nl] (empty_buf [] 0)).1
       = (m2, Normal tt)
       ∧ cutMessage m2 = (m2, Normal None)).
Proof.
  assert (wf (receive [nl] (empty_buf [] 0)).1) as Hwf.
  { concrete_wf (receive [nl] (empty_buf [] 0)).1. }
  assert (view_ok (heap (receive [nl] (empty_buf [] 0)).1) the_byte) as Hchunk.
  { unfold view_ok, backing. vm_compute. lia. }
  destruct (Variant2_loses_messages (receive [nl] (empty_buf [] 0)).1 the_byte
              Hwf Hchunk) as [Hfirst Hsecond];
    [vm_compute; reflexivity | by_computation | by_computation |].
  by split_and!.
Defined.

(** X9.  Framing does not depend on the chunks.  Draining the buffer
    after every appended chunk returns, over all, the same messages in
    the same order as appending all the chunks and draining once, and
    leaves the same valid bytes; each drain loop ends on [null]. *)
Theorem feed_is_chunk_independent (m : Mem) (chunks : list (list byte)) :
  wf m →
  x0a ∉ valid m →
  ∃ m1 m2 msgs,
    feed chunks m = (m1, Normal msgs)
    ∧ feed_at_once chunks m = (m2, Normal msgs)
    ∧ valid m1 = valid m2
    ∧ Forall is_message msgs
    ∧ concat msgs ++ valid m1 = valid m ++ concat chunks
    ∧ x0a ∉ valid m1.
Proof.
  intros Hwf Hnone.
  destruct (feed_spec chunks m Hwf Hnone)
    as (m1 & msgs & Hfeed & _ & Hall & Hcat & Hrem).
  destruct (push_all_spec chunks m Hwf) as (mp & Hpush & Hwfp & Hvp).
  destruct (drain_all_spec mp Hwfp)
    as (m2 & msgs' & Hdrain & _ & Hall' & Hcat' & Hrem' & _).
  rewrite Hvp, <- Hcat in Hcat'.
  destruct (framing_unique msgs' msgs (valid m2) (valid m1)) as [-> Hv];
    [done..|].
  exists m1, m2, msgs. split_and!; try done.
  unfold feed_at_once, mbind, M_bind. by rewrite Hpush.
Qed.

Lemma feed_is_chunk_independent_witness :
  wf (empty_buf [] 0)
  ∧ (x0a ∉ valid (empty_buf [] 0))
  ∧ ∃ m1 m2 msgs,
      feed ragged_chunks (empty_buf [] 0) = (m1, Normal msgs)
      ∧ feed_at_once ragged_chunks (empty_buf [] 0) = (m2, Normal msgs)
      ∧ valid m1 = valid m2
      ∧ Forall is_message msgs
      ∧ concat msgs ++ valid m1 = valid (empty_buf [] 0) ++ concat ragged_chunks
      ∧ x0a ∉ valid m1.
Proof.
  assert (wf (empty_buf [] 0)) as Hwf.
  { unfold wf, view_ok, backing, capacity. simpl. lia. }
  assert (x0a ∉ valid (empty_buf [] 0)) as Hnone by by_computation.
  split_and!; [done..|].
  exact (feed_is_chunk_independent (empty_buf [] 0) ragged_chunks Hwf Hnone).
Defined.

(** The ragged chunks give the two lines and keep the last byte. *)
Example feed_ragged :
  (feed ragged_chunks (empty_buf [] 0)).2
  = Normal [ [x68; x65; x6c; x6c; nl]; [x31; x32; x33; x34; nl] ]
  ∧ valid (feed ragged_chunks (empty_buf [] 0)).1 = [x71].
Proof. split; reflexivity. Qed.

End DynBufExtra.

(** ** More facts about the connection adapter *)

Module TcpConnMoreFacts.
Import Node TcpConn TcpConnFacts TcpConnObs.

(** *** Promises are settled once *)

Lemma settle_settled {A} (outcome s : Promise A) :
  s ≠ Pending → settle outcome s = s.
Proof. by destruct s. Qed.

Lemma lookup_alter_settled {A} (outcome s : Promise A) q p (l : list (Promise A)) :
  l !! p = Some s → s ≠ Pending → alter (settle outcome) q l !! p = Some s.
Proof.
  intros Hp Hs. rewrite list_lookup_alter. case_decide; [subst q|done].
  rewrite Hp. simpl. by rewrite settle_settled.
Qed.

(** A promise that is pending after a callback was pending before. *)
Lemma lookup_alter_still_pending {A} (outcome : Promise A) q p
    (l : list (Promise A)) :
  outcome ≠ Pending →
  alter (settle outcome) q l !! p = Some Pending → l !! p = Some Pending.
Proof.
  intros Ho. rewrite list_lookup_alter. case_decide; [subst q|done].
  destruct (l !! p) as [[| |]|]; simpl; intros; by simplify_eq.
Qed.

Lemma act_keeps_settled a w :
  (∀ p s, reads w !! p = Some s → s ≠ Pending → reads (act a w) !! p = Some s)
  ∧ (∀ q s, writes w !! q = Some s → s ≠ Pending →
            writes (act a w) !! q = Some s).
Proof.
  destruct a as [|data|[data| |e|q' failure]]; simpl.
  - unfold soRead. repeat case_match; simpl; split; try done;
      intros p s Hp _; by apply lookup_app_l_Some.
  - unfold soWrite. repeat case_match; simpl; split; try done;
      intros p s Hp _; by apply lookup_app_l_Some.
  - unfold on_data. case_match; simpl; split; try done.
    intros p s Hp Hs. by apply lookup_alter_settled.
  - unfold on_end. case_match; simpl; split; try done.
    intros p s Hp Hs. by apply lookup_alter_settled.
  - unfold on_error. case_match; simpl; split; try done.
    intros p s Hp Hs. by apply lookup_alter_settled.
  - split; [done|]. intros p s Hp Hs. by apply lookup_alter_settled.
Qed.

Lemma run_keeps_settled later : ∀ w,
  (∀ p s, reads w !! p = Some s → s ≠ Pending →
          reads (run later w) !! p = Some s)
  ∧ (∀ q s, writes w !! q = Some s → s ≠ Pending →
            writes (run later w) !! q = Some s).
Proof.
  induction later as [|a later IH] using rev_ind; intros w; [done|].
  rewrite run_snoc. destruct (IH w) as [IHr IHw].
  destruct (act_keeps_settled a (run later w)) as [Hr Hw].
  split; intros p s Hp Hs; [apply Hr | apply Hw]; auto.
Qed.

(** *** No pending read without a reader *)

Lemma act_no_orphan_read a w : no_orphan_read w → no_orphan_read (act a w).
Proof.
  intros Hinv. destruct a as [|data|[data| |e|q failure]]; simpl.
  - unfold soRead. destruct (reader (conn w)) as [r|] eqn:Hr; [done|].
    assert (∀ p, reads w !! p ≠ Some Pending) as Hnone.
    { intros p Hp. apply Hinv in Hp. congruence. }
    assert (∀ (x : Promise (list byte)) p,
      (reads w ++ [x]) !! p = Some Pending → p = length (reads w) ∧ x = Pending)
      as Hnew.
    { intros x p Hp. apply lookup_app_Some in Hp as [Hp|[Hge Hp]].
      - by apply Hnone in Hp.
      - apply list_lookup_singleton_Some in Hp as [Hz ->]. split; [lia|done]. }
    destruct (err (conn w)); simpl.
    { intros p Hp. simpl in Hp. by apply Hnew in Hp as [_ ?]. }
    destruct (ended (conn w)); simpl.
    { intros p Hp. simpl in Hp. by apply Hnew in Hp as [_ ?]. }
    intros p Hp. simpl in *. apply Hnew in Hp as [-> _]. done.
  - unfold soWrite. case_decide; [done|]. by destruct (err (conn w)).
  - unfold on_data. destruct (reader (conn w)) as [r|] eqn:Hr; [|done].
    intros p Hp. simpl in *.
    assert (reads w !! p = Some Pending) as Hold
      by (eapply lookup_alter_still_pending; [|exact Hp]; done).
    apply Hinv in Hold. rewrite Hr in Hold. simplify_eq.
    rewrite list_lookup_alter_eq in Hp.
    destruct (reads w !! p) as [[| |]|]; by simplify_eq.
  - unfold on_end. destruct (reader (conn w)) as [r|] eqn:Hr; simpl.
    + intros p Hp. simpl in *.
      assert (reads w !! p = Some Pending) as Hold
      by (eapply lookup_alter_still_pending; [|exact Hp]; done).
      apply Hinv in Hold. rewrite Hr in Hold. simplify_eq.
      rewrite list_lookup_alter_eq in Hp.
      destruct (reads w !! p) as [[| |]|]; by simplify_eq.
    + intros p Hp. simpl in *. apply Hinv in Hp. congruence.
  - unfold on_error. destruct (reader (conn w)) as [r|] eqn:Hr; simpl.
    + intros p Hp. simpl in *.
      assert (reads w !! p = Some Pending) as Hold
      by (eapply lookup_alter_still_pending; [|exact Hp]; done).
      apply Hinv in Hold. rewrite Hr in Hold. simplify_eq.
      rewrite list_lookup_alter_eq in Hp.
      destruct (reads w !! p) as [[| |]|]; by simplify_eq.
    + intros p Hp. simpl in *. apply Hinv in Hp. congruence.
  - done.
Qed.

Lemma run_no_orphan_read trace : no_orphan_read (run trace soInit).
Proof.
  induction trace as [|a trace IH] using rev_ind.
  - intros p Hp. simpl in Hp. by rewrite lookup_nil in Hp.
  - rewrite run_snoc. by apply act_no_orphan_read.
Qed.

(** *** Resumes and pauses *)

Lemma resumes_snoc log c :
  resumes (log ++ [c]) = resumes log + (if decide (c = Resume) then 1 else 0).
Proof.
  unfold resumes. rewrite filter_app, length_app, filter_cons, filter_nil.
  by case_decide.
Qed.

Lemma pauses_snoc log c :
  pauses (log ++ [c]) = pauses log + (if decide (c = Pause) then 1 else 0).
Proof.
  unfold pauses. rewrite filter_app, length_app, filter_cons, filter_nil.
  by case_decide.
Qed.

Lemma flow_balanced_same w w' :
  conn w' = conn w →
  resumes (socket w') = resumes (socket w) →
  pauses (socket w') = pauses (socket w) →
  flow_balanced w → flow_balanced w'.
Proof. unfold flow_balanced. by intros -> -> ->. Qed.

Lemma act_flow_balanced a w : flow_balanced w → flow_balanced (act a w).
Proof.
  unfold flow_balanced. intros Hinv.
  destruct a as [|data|[data| |e|q failure]]; simpl.
  - unfold soRead. destruct (reader (conn w)) as [r|] eqn:Hr; simpl.
    { by rewrite Hr. }
    destruct Hinv as [Hbounds Hidle].
    destruct (err (conn w)) eqn:He; simpl.
    { rewrite Hr. split; [done|]. by rewrite He. }
    destruct (ended (conn w)) eqn:Hd; simpl.
    { rewrite Hr. split; [done|]. by rewrite Hd. }
    rewrite resumes_snoc, pauses_snoc. simpl.
    rewrite Hidle by done. lia.
  - apply (flow_balanced_same w); [..|exact Hinv];
      unfold soWrite; repeat case_match; simpl;
      rewrite ?resumes_snoc, ?pauses_snoc; simpl; lia || done.
  - unfold on_data. destruct (reader (conn w)) as [r|] eqn:Hr; simpl.
    + rewrite resumes_snoc, pauses_snoc. simpl. lia.
    + by rewrite Hr.
  - unfold on_end. destruct (reader (conn w)) as [r|] eqn:Hr; simpl.
    + split; [lia|done].
    + split; [apply Hinv|done].
  - unfold on_error. destruct (reader (conn w)) as [r|] eqn:Hr; simpl.
    + split; [lia|done].
    + split; [apply Hinv|done].
  - done.
Qed.

Lemma run_flow_balanced trace : flow_balanced (run trace soInit).
Proof.
  induction trace as [|a trace IH] using rev_ind.
  - unfold flow_balanced, resumes, pauses. simpl. split; [lia|done].
  - rewrite run_snoc. by apply act_flow_balanced.
Qed.

(** *** One event on a served connection *)

Lemma finish_destroys w p :
  settled p → Destroy ∉ socket w →
  finish (mkServer w p)
  = mkServer (mkWorld (conn w) (reads w) (writes w) (socket w ++ [Destroy])) p.
Proof.
  intros Hp Hsock. unfold finish. simpl.
  destruct p; try done; by rewrite decide_False.
Qed.

Lemma finish_awaiting_read w p :
  finish (mkServer w (AwaitRead p)) = mkServer w (AwaitRead p).
Proof. done. Qed.

Lemma finish_awaiting_write w q :
  finish (mkServer w (AwaitWrite q)) = mkServer w (AwaitWrite q).
Proof. done. Qed.

Section AwaitingRead.
Context (w : World) (p : nat).
Context (Hreader : reader (conn w) = Some p).
Context (Hpending : reads w !! p = Some Pending).
Context (Herr : err (conn w) = None).
Context (Hsock : Destroy ∉ socket w).

Lemma deliver_read_data data :
  data ≠ [] →
  deliver (EvData data) (mkServer w (AwaitRead p))
  = mkServer
      (mkWorld (mkConn None (ended (conn w)) None)
         (alter (settle (Fulfilled data)) p (reads w))
         (writes w ++ [Pending])
         (socket w ++ [Pause; Write data (length (writes w))]))
      (AwaitWrite (length (writes w))).
Proof.
  intros Hdata. unfold deliver, resume. cbn [handle pc world].
  unfold on_data. rewrite Hreader. cbn [fst reads].
  rewrite (lookup_alter_pending _ _ _ Hpending).
  rewrite after_read_echoes by done. rewrite finish_awaiting_write.
  simpl. by rewrite Herr, <- app_assoc.
Qed.

Lemma deliver_read_no_data :
  deliver (EvData []) (mkServer w (AwaitRead p))
  = mkServer
      (mkWorld (mkConn None (ended (conn w)) None)
         (alter (settle (Fulfilled [])) p (reads w)) (writes w)
         (socket w ++ [Pause; Destroy]))
      Returned.
Proof.
  unfold deliver, resume. cbn [handle pc world].
  unfold on_data. rewrite Hreader. cbn [fst reads].
  rewrite (lookup_alter_pending _ _ _ Hpending).
  unfold after_read. rewrite decide_True by done.
  rewrite finish_destroys; [|done|by apply not_elem_of_snoc].
  simpl. by rewrite Herr, <- app_assoc.
Qed.

Lemma deliver_read_end :
  deliver EvEnd (mkServer w (AwaitRead p))
  = mkServer
      (mkWorld (mkConn None true None)
         (alter (settle (Fulfilled [])) p (reads w)) (writes w)
         (socket w ++ [Destroy]))
      Returned.
Proof.
  unfold deliver, resume. cbn [handle pc world].
  unfold on_end. rewrite Hreader. cbn [fst reads].
  rewrite (lookup_alter_pending _ _ _ Hpending).
  unfold after_read. rewrite decide_True by done.
  rewrite finish_destroys by done. simpl. by rewrite Herr.
Qed.

Lemma deliver_read_error e :
  deliver (EvError e) (mkServer w (AwaitRead p))
  = mkServer
      (mkWorld (mkConn (Some e) (ended (conn w)) None)
         (alter (settle (Rejected e)) p (reads w)) (writes w)
         (socket w ++ [Destroy]))
      (Failed e).
Proof.
  unfold deliver, resume. cbn [handle pc world].
  unfold on_error. rewrite Hreader. cbn [fst reads].
  rewrite (lookup_alter_pending _ _ _ Hpending).
  by rewrite finish_destroys.
Qed.

Lemma deliver_read_written q failure :
  deliver (EvWritten q failure) (mkServer w (AwaitRead p))
  = mkServer (handle (EvWritten q failure) w).1 (AwaitRead p).
Proof.
  unfold deliver, resume. cbn [handle pc world on_written fst reads].
  rewrite Hpending. apply finish_awaiting_read.
Qed.

End AwaitingRead.

Section AwaitingWrite.
Context (w : World) (q : nat).
Context (Hreader : reader (conn w) = None).
Context (Hpending : writes w !! q = Some Pending).
Context (Hsock : Destroy ∉ socket w).

(** Events that do not settle the awaited write leave the function
    where it is. *)
Lemma deliver_write_waits ev :
  ev ≠ EvWritten q None → (∀ e, ev ≠ EvWritten q (Some e)) →
  deliver ev (mkServer w (AwaitWrite q))
  = mkServer (handle ev w).1 (AwaitWrite q)
  ∧ writes (handle ev w).1 !! q = Some Pending
  ∧ reads (handle ev w).1 = reads w
  ∧ socket (handle ev w).1 = socket w
  ∧ reader (conn (handle ev w).1) = None.
Proof.
  intros Hdone Hfail.
  assert (writes (handle ev w).1 !! q = Some Pending
          ∧ reads (handle ev w).1 = reads w
          ∧ socket (handle ev w).1 = socket w
          ∧ reader (conn (handle ev w).1) = None) as Hsame.
  { destruct ev as [data| |e|q' failure]; simpl;
      unfold on_data, on_end, on_error; rewrite ?Hreader; simpl; try done.
    split_and!; try done.
    rewrite list_lookup_alter_ne; [done|].
    intros ->. destruct failure; [by eapply Hfail | done]. }
  split; [|done]. destruct Hsame as (Hq & _).
  unfold deliver, resume. cbn [pc world]. rewrite Hq.
  apply finish_awaiting_write.
Qed.

Lemma deliver_write_failed e :
  deliver (EvWritten q (Some e)) (mkServer w (AwaitWrite q))
  = mkServer
      (mkWorld (conn w) (reads w) (alter (settle (Rejected e)) q (writes w))
         (socket w ++ [Destroy]))
      (Failed e).
Proof.
  unfold deliver, resume. cbn [handle pc world on_written fst writes].
  rewrite (lookup_alter_pending _ _ _ Hpending).
  by rewrite finish_destroys.
Qed.

(** The write is done: the loop reads again, and what it finds
    latched decides how it goes on. *)
Lemma deliver_write_done :
  deliver (EvWritten q None) (mkServer w (AwaitWrite q))
  = let writes' := alter (settle (Fulfilled tt)) q (writes w) in
    match err (conn w) with
    | Some e =>
        mkServer (mkWorld (conn w) (reads w ++ [Rejected e]) writes'
                    (socket w ++ [Destroy])) (Failed e)
    | None =>
        if ended (conn w) then
          mkServer (mkWorld (conn w) (reads w ++ [Fulfilled []]) writes'
                      (socket w ++ [Destroy])) Returned
        else
          mkServer (mkWorld (mkConn None false (Some (length (reads w))))
                      (reads w ++ [Pending]) writes' (socket w ++ [Resume]))
            (AwaitRead (length (reads w)))
    end.
Proof.
  unfold deliver, resume. cbn [handle pc world on_written fst writes].
  rewrite (lookup_alter_pending _ _ _ Hpending).
  unfold fuel. cbn [serve_loop]. unfold soRead. cbn [conn reads].
  rewrite Hreader.
  destruct (err (conn w)) as [e|] eqn:Herr; cbn [fst snd reads].
  { rewrite lookup_snoc. by rewrite finish_destroys. }
  destruct (ended (conn w)) eqn:Hended; cbn [fst snd reads];
    rewrite lookup_snoc.
  - unfold after_read. rewrite decide_True by done.
    by rewrite finish_destroys.
  - by rewrite finish_awaiting_read.
Qed.

End AwaitingWrite.

(** Once [serveClient] is done, events reach the listeners but nothing
    is called on the socket and no read promise changes. *)
Lemma deliver_settled w p ev :
  settled p → reader (conn w) = None → Destroy ∈ socket w →
  deliver ev (mkServer w p) = mkServer (handle ev w).1 p
  ∧ socket (handle ev w).1 = socket w
  ∧ reads (handle ev w).1 = reads w
  ∧ reader (conn (handle ev w).1) = None.
Proof.
  intros Hp Hreader Hsock.
  assert (socket (handle ev w).1 = socket w
          ∧ reads (handle ev w).1 = reads w
          ∧ reader (conn (handle ev w).1) = None) as Hsame.
  { destruct ev as [data| |e|q failure]; simpl;
      unfold on_data, on_end, on_error; rewrite ?Hreader; by simpl. }
  split; [|done]. destruct Hsame as (Hs & _).
  unfold deliver, resume, finish. cbn [pc world].
  destruct p; try done; cbn [pc world]; by rewrite Hs, decide_True.
Qed.

(** *** The awaited promise is the only pending one *)

Section Pending.
Context {A : Type}.
Implicit Types (l : list (Promise A)) (o x : Promise A).

Lemma settle_leaves_none_pending l p o :
  (∀ p', l !! p' = Some Pending → p' = p) → o ≠ Pending →
  l !! p = Some Pending →
  ∀ p', alter (settle o) p l !! p' ≠ Some Pending.
Proof.
  intros Honly Ho Hp p' Hp'.
  assert (l !! p' = Some Pending) as Hold
    by (eapply lookup_alter_still_pending; [|exact Hp']; done).
  apply Honly in Hold as ->.
  rewrite (lookup_alter_pending _ _ _ Hp) in Hp'. by simplify_eq.
Qed.

Lemma alter_keeps_none_pending l q o :
  (∀ p, l !! p ≠ Some Pending) → o ≠ Pending →
  ∀ p, alter (settle o) q l !! p ≠ Some Pending.
Proof.
  intros Hnone Ho p Hp. apply (Hnone p).
  eapply lookup_alter_still_pending; [|exact Hp]; done.
Qed.

Lemma alter_other_keeps_pending l q q' o :
  (∀ p, l !! p = Some Pending → p = q) → o ≠ Pending →
  ∀ p, alter (settle o) q' l !! p = Some Pending → p = q.
Proof.
  intros Honly Ho p Hp. apply Honly.
  eapply lookup_alter_still_pending; [|exact Hp]; done.
Qed.

Lemma snoc_none_pending l x :
  (∀ p, l !! p ≠ Some Pending) → x ≠ Pending →
  ∀ p, (l ++ [x]) !! p ≠ Some Pending.
Proof.
  intros Hnone Hx p Hp. apply lookup_app_Some in Hp as [Hp|[_ Hp]].
  - by apply Hnone in Hp.
  - apply list_lookup_singleton_Some in Hp as [_ ->]. done.
Qed.

Lemma snoc_pending_is_last l :
  (∀ p, l !! p ≠ Some Pending) →
  ∀ p, (l ++ [Pending]) !! p = Some Pending → p = length l.
Proof.
  intros Hnone p Hp. apply lookup_app_Some in Hp as [Hp|[Hge Hp]].
  - by apply Hnone in Hp.
  - apply list_lookup_singleton_Some in Hp as [Hz _]. lia.
Qed.

End Pending.

Lemma deliver_quiescent ev s : serving s → quiescent s → quiescent (deliver ev s).
Proof.
  intros Hs (Hw & Hr & Hpc). destruct s as [w pc0].
  unfold serving in Hs. simpl in *.
  destruct pc0 as [p|q| | |]; try done.
  - (* awaiting the read *)
    destruct Hs as (Hreader & Hpending & Herr & Hended & Hsock).
    assert (∀ q, writes w !! q ≠ Some Pending) as Hnow
      by (intros q Hq; by apply Hw in Hq).
    assert (∀ p', reads w !! p' = Some Pending → p' = p) as Honly
      by (intros p' Hp'; apply Hr in Hp'; by simplify_eq).
    destruct ev as [data| |e|q failure].
    + destruct (decide (data = [])) as [->|Hdata].
      * rewrite deliver_read_no_data by done.
        split_and!; simpl.
        -- intros q Hq. by apply Hnow in Hq.
        -- intros p' Hp'. exfalso. revert Hp'. by apply settle_leaves_none_pending.
        -- split; [done|]. exists (socket w ++ [Pause]).
           rewrite <- app_assoc. split; [done|]. by apply not_elem_of_snoc.
      * rewrite deliver_read_data by done.
        split_and!; simpl.
        -- intros q Hq. f_equal. symmetry. by apply (snoc_pending_is_last _ Hnow).
        -- intros p' Hp'. exfalso. revert Hp'. by apply settle_leaves_none_pending.
        -- split; [apply lookup_snoc|].
           rewrite not_elem_of_app. split; [done|].
           rewrite !not_elem_of_cons. split_and!; try done. apply not_elem_of_nil.
    + rewrite deliver_read_end by done.
      split_and!; simpl.
      * intros q Hq. by apply Hnow in Hq.
      * intros p' Hp'. exfalso. revert Hp'. by apply settle_leaves_none_pending.
      * split; [done|]. by exists (socket w).
    + rewrite deliver_read_error by done.
      split_and!; simpl.
      * intros q Hq. by apply Hnow in Hq.
      * intros p' Hp'. exfalso. revert Hp'. by apply settle_leaves_none_pending.
      * split; [done|]. by exists (socket w).
    + rewrite deliver_read_written by done.
      split_and!; simpl.
      * intros q' Hq'. exfalso. revert Hq'. apply alter_keeps_none_pending; [done|].
        by destruct failure.
      * done.
      * done.
  - (* awaiting the write *)
    destruct Hs as (Hreader & _ & Hsock). destruct Hpc as [Hpending _].
    assert (∀ p, reads w !! p ≠ Some Pending) as Hnor
      by (intros p Hp; by apply Hr in Hp).
    assert (∀ q', writes w !! q' = Some Pending → q' = q) as Honly
      by (intros q' Hq'; apply Hw in Hq'; by simplify_eq).
    assert (∀ ev,
      ev ≠ EvWritten q None → (∀ e, ev ≠ EvWritten q (Some e)) →
      quiescent (deliver ev (mkServer w (AwaitWrite q)))) as Hwaits.
    { clear ev. intros ev Hdone Hfail.
    destruct (deliver_write_waits w q Hreader Hpending ev)
      as (-> & Hq & Hreads & Hsocket & _); [done|done|].
    split_and!; simpl.
    + intros q' Hq'. f_equal. symmetry.
      destruct ev as [data| |e|q'' failure]; simpl in *;
        unfold on_data, on_end, on_error in *; rewrite ?Hreader in *;
        simpl in *; try by apply Honly.
      eapply alter_other_keeps_pending; [exact Honly| |exact Hq'].
      by destruct failure.
    + rewrite Hreads. intros p Hp. by apply Hnor in Hp.
    + split; [done | by rewrite Hsocket]. }
    destruct ev as [data| |e|q' failure]; [by apply Hwaits..|].
    destruct (decide (q' = q)) as [->|Hne]; [|apply Hwaits; congruence].
    destruct failure as [e|].
    { rewrite deliver_write_failed by done.
      split_and!; simpl.
      - intros q' Hq'. exfalso. revert Hq'. by apply settle_leaves_none_pending.
      - intros p Hp. by apply Hnor in Hp.
      - split; [done|]. by exists (socket w). }
    { rewrite deliver_write_done by done. cbv zeta.
      assert (∀ q', alter (settle (Fulfilled tt)) q (writes w) !! q'
                    ≠ Some Pending) as Hnow
        by by apply settle_leaves_none_pending.
      destruct (err (conn w)) as [e|] eqn:Herr;
        [|destruct (ended (conn w)) eqn:Hended].
      - split_and!; simpl.
        + intros q' Hq'. by apply Hnow in Hq'.
        + intros p Hp. exfalso. revert Hp. by apply snoc_none_pending.
        + split; [done|]. by exists (socket w).
      - split_and!; simpl.
        + intros q' Hq'. by apply Hnow in Hq'.
        + intros p Hp. exfalso. revert Hp. by apply snoc_none_pending.
        + split; [done|]. by exists (socket w).
      - split_and!; simpl.
        + intros q' Hq'. by apply Hnow in Hq'.
        + intros p Hp. f_equal. symmetry. by apply (snoc_pending_is_last _ Hnor).
        + split; [apply lookup_snoc | by apply not_elem_of_snoc]. }
  - (* returned *)
    destruct Hpc as [Hreader (calls & Hcalls & Hnot)].
    destruct (deliver_settled w Returned ev) as (-> & Hsocket & Hreads & Hrd);
      [done | done | rewrite Hcalls; apply elem_of_app; right; by left |].
    split_and!; simpl.
    + intros q Hq. exfalso.
      destruct ev as [data| |e|q'' failure]; simpl in *;
        unfold on_data, on_end, on_error in *; rewrite ?Hreader in *;
        simpl in *; try by apply Hw in Hq.
      apply lookup_alter_still_pending in Hq; [by apply Hw in Hq|].
      by destruct failure.
    + rewrite Hreads. done.
    + split; [done|]. rewrite Hsocket. by exists calls.
  - (* failed *)
    destruct Hpc as [Hreader (calls & Hcalls & Hnot)].
    destruct (deliver_settled w (Failed e) ev) as (-> & Hsocket & Hreads & Hrd);
      [done | done | rewrite Hcalls; apply elem_of_app; right; by left |].
    split_and!; simpl.
    + intros q Hq. exfalso.
      destruct ev as [data| |e'|q'' failure]; simpl in *;
        unfold on_data, on_end, on_error in *; rewrite ?Hreader in *;
        simpl in *; try by apply Hw in Hq.
      apply lookup_alter_still_pending in Hq; [by apply Hw in Hq|].
      by destruct failure.
    + rewrite Hreads. done.
    + split; [done|]. rewrite Hsocket. by exists calls.
Qed.

Lemma newConn_quiescent : quiescent newConn.
Proof.
  unfold quiescent. vm_compute. split_and!.
  - intros q Hq. by destruct q.
  - intros [|[|p]] Hp; by simplify_eq.
  - done.
  - intros Hin. by apply list_elem_of_In in Hin as [|[]].
Qed.

Lemma serve_quiescent events : quiescent (serve events).
Proof.
  induction events as [|ev events IH] using rev_ind.
  - apply newConn_quiescent.
  - rewrite serve_snoc. apply deliver_quiescent; [apply serve_serving | done].
Qed.

(** *** A promise stays pending until its own callback runs *)

Lemma act_keeps_pending_write a w q :
  writes w !! q = Some Pending →
  (∀ failure, a ≠ Ev (EvWritten q failure)) →
  writes (act a w) !! q = Some Pending.
Proof.
  intros Hq Hne. destruct a as [|data|[data| |e|q' failure]]; simpl.
  - unfold soRead. by repeat case_match.
  - unfold soWrite. repeat case_match; simpl; try done;
      by apply lookup_app_l_Some.
  - unfold on_data. by case_match.
  - unfold on_end. by case_match.
  - unfold on_error. by case_match.
  - destruct (decide (q' = q)) as [->|Hq']; [by destruct (Hne failure)|].
    by rewrite list_lookup_alter_ne.
Qed.

Lemma run_keeps_pending_write trace : ∀ w q,
  writes w !! q = Some Pending →
  (∀ failure, Ev (EvWritten q failure) ∉ trace) →
  writes (run trace w) !! q = Some Pending.
Proof.
  induction trace as [|a trace IH]; intros w q Hq Hne; [done|].
  simpl. apply IH.
  - apply act_keeps_pending_write; [done|].
    intros failure ->. apply (Hne failure). by left.
  - intros failure Hin. apply (Hne failure). by right.
Qed.

(** Calls and write callbacks leave an outstanding read alone. *)
Lemma act_keeps_reading a w p :
  reader (conn w) = Some p → reads w !! p = Some Pending →
  no_read_event a →
  conn (act a w) = conn w ∧ reads (act a w) !! p = Some Pending
  ∧ resumes (socket (act a w)) = resumes (socket w)
  ∧ pauses (socket (act a w)) = pauses (socket w).
Proof.
  intros Hreader Hp Ha.
  destruct a as [|data|[data| |e|q failure]]; simpl in *; try done.
  - unfold soRead. by rewrite Hreader.
  - unfold soWrite. repeat case_match; simpl; split_and!; try done.
    + by rewrite resumes_snoc, decide_False, Nat.add_0_r.
    + by rewrite pauses_snoc, decide_False, Nat.add_0_r.
Qed.

Lemma run_keeps_reading trace : ∀ w p,
  reader (conn w) = Some p → reads w !! p = Some Pending →
  Forall no_read_event trace →
  conn (run trace w) = conn w ∧ reads (run trace w) !! p = Some Pending
  ∧ resumes (socket (run trace w)) = resumes (socket w)
  ∧ pauses (socket (run trace w)) = pauses (socket w).
Proof.
  induction trace as [|a trace IH]; intros w p Hreader Hp Hquiet; [done|].
  apply Forall_cons in Hquiet as [Ha Hquiet]. simpl.
  destruct (act_keeps_reading a w p Hreader Hp Ha) as (Hc & Hp' & Hr & Hpa).
  destruct (IH (act a w) p) as (Hc' & Hp'' & Hr' & Hpa');
    [by rewrite Hc | done | done |].
  split_and!; [by rewrite Hc' | done | by rewrite Hr' | by rewrite Hpa'].
Qed.

(** *** The served connection, event by event *)

Lemma written_app log log' : written (log ++ log') = written log ++ written log'.
Proof. apply omap_app. Qed.

Lemma deliver_written ev s :
  serving s → quiescent s →
  written (socket (world (deliver ev s)))
  = written (socket (world s)) ++ echo_of s ev.
Proof.
  destruct s as [w [p|q| |e|]]; unfold serving, quiescent, echo_of; simpl;
    intros Hserving (Hw & Hr & Hpc); try done.
  - destruct Hserving as (Hreader & Hp & Herr & Hended & Hsock).
    destruct ev as [data| |e|q failure].
    + destruct (decide (data = [])) as [->|Hdata].
      * rewrite deliver_read_no_data by done. simpl.
        by rewrite written_app.
      * rewrite deliver_read_data by done. simpl. by rewrite written_app.
    + rewrite deliver_read_end by done. simpl.
      by rewrite written_app.
    + rewrite deliver_read_error by done. simpl.
      by rewrite written_app.
    + rewrite deliver_read_written by done. simpl. by rewrite app_nil_r.
  - destruct Hserving as (Hreader & _ & Hsock). destruct Hpc as [Hq _].
    rewrite app_nil_r.
    assert (∀ ev, ev ≠ EvWritten q None → (∀ e, ev ≠ EvWritten q (Some e)) →
      written (socket (world (deliver ev (mkServer w (AwaitWrite q)))))
      = written (socket w)) as Hwaits.
    { clear ev. intros ev Hdone Hfail.
      destruct (deliver_write_waits w q Hreader Hq ev)
        as (-> & _ & _ & Hsocket & _); [done|done|].
      simpl. by rewrite Hsocket. }
    destruct ev as [data| |e|q' failure]; [by apply Hwaits..|].
    destruct (decide (q' = q)) as [->|Hne]; [|apply Hwaits; congruence].
    destruct failure as [e|].
    + rewrite deliver_write_failed by done. simpl.
      by rewrite written_app, app_nil_r.
    + rewrite deliver_write_done by done. cbv zeta.
      repeat case_match; simpl; by rewrite written_app, app_nil_r.
  - destruct Hpc as [Hreader (calls & Hcalls & Hnot)].
    destruct (deliver_settled w Returned ev) as (-> & Hsocket & _);
      [done | done | rewrite Hcalls; apply elem_of_app; right; by left |].
    simpl. by rewrite Hsocket, app_nil_r.
  - destruct Hpc as [Hreader (calls & Hcalls & Hnot)].
    destruct (deliver_settled w (Failed e) ev) as (-> & Hsocket & _);
      [done | done | rewrite Hcalls; apply elem_of_app; right; by left |].
    simpl. by rewrite Hsocket, app_nil_r.
Qed.

(** Once [serveClient] is done it stays done, and nothing more is
    called on the socket. *)
Lemma deliver_done ev s :
  quiescent s → settled (pc s) →
  pc (deliver ev s) = pc s ∧ socket (world (deliver ev s)) = socket (world s).
Proof.
  destruct s as [w p]. unfold quiescent. simpl. intros (_ & _ & Hpc) Hdone.
  destruct p as [p|q| |e|]; try done;
    destruct Hpc as [Hreader (calls & Hcalls & Hnot)].
  - destruct (deliver_settled w Returned ev) as (-> & Hsocket & _);
      [done | done | rewrite Hcalls; apply elem_of_app; right; by left |].
    done.
  - destruct (deliver_settled w (Failed e) ev) as (-> & Hsocket & _);
      [done | done | rewrite Hcalls; apply elem_of_app; right; by left |].
    done.
Qed.

(** The reader slot is taken exactly while [serveClient] awaits a
    read. *)
Lemma serve_reader events p :
  reader (conn (world (serve events))) = Some p
  ↔ pc (serve events) = AwaitRead p.
Proof.
  pose proof (serve_serving events) as Hserving.
  pose proof (serve_quiescent events) as (_ & _ & Hpc).
  unfold serving in Hserving.
  destruct (pc (serve events)) as [p'|q| |e|] eqn:Heq; try done.
  - destruct Hserving as (Hreader & _). rewrite Hreader.
    split; congruence.
  - destruct Hserving as (Hreader & _). by rewrite Hreader.
  - destruct Hpc as [Hreader _]. by rewrite Hreader.
  - destruct Hpc as [Hreader _]. by rewrite Hreader.
Qed.

End TcpConnMoreFacts.

(** ** Further properties of the connection adapter *)

Module TcpConnExtra.
Import Node TcpConn TcpConnFacts TcpConnObs TcpConnMoreFacts.
Import Samples.

(** X10.  [soWrite] of non-empty data on a connection without a
    latched error returns a new pending promise, passes the data to
    [socket.write] once and leaves the connection fields and the read
    promises alone; the promise stays pending through any calls and
    events until the callback of that write runs, is then fulfilled or
    rejected with the failure the callback reports, and keeps that
    outcome whatever follows, a second run of the callback included. *)
Theorem soWrite_settles_with_its_callback (w : World) (data : list byte)
    (between after : list Action) (failure : option JsError) :
  data ≠ [] →
  err (conn w) = None →
  (∀ f, Ev (EvWritten (length (writes w)) f) ∉ between) →
  let q := length (writes w) in
  let w1 := (soWrite data w).1 in
  (soWrite data w).2 = q
  ∧ conn w1 = conn w
  ∧ reads w1 = reads w
  ∧ socket w1 = socket w ++ [Write data q]
  ∧ writes w1 !! q = Some Pending
  ∧ writes (run between w1) !! q = Some Pending
  ∧ writes (run (between ++ Ev (EvWritten q failure) :: after) w1) !! q
    = Some (match failure with
            | Some e => Rejected e
            | None => Fulfilled tt
            end).
Proof.
  intros Hdata Herr Hbetween q w1.
  assert (soWrite data w
          = (mkWorld (conn w) (reads w) (writes w ++ [Pending])
               (socket w ++ [Write data q]), q)) as Hrun.
  { unfold soWrite. rewrite decide_False, Herr; [done|]. by destruct data. }
  subst w1. rewrite Hrun. simpl.
  assert ((writes w ++ [Pending]) !! q = Some Pending) as Hq
    by apply lookup_snoc.
  split_and!; try done.
  - by apply run_keeps_pending_write.
  - rewrite run_app. simpl. apply run_keeps_settled.
    + cbn [writes]. rewrite list_lookup_alter_eq.
      rewrite run_keeps_pending_write by done. by destruct failure.
    + by destruct failure.
Qed.

Lemma soWrite_settles_with_its_callback_witness :
  hello_line ≠ []
  ∧ err (conn reading) = None
  ∧ writes (soWrite hello_line reading).1 !! 0 = Some Pending
  ∧ writes (run ([Ev (EvData hello_line)]
                 ++ Ev (EvWritten 0 (Some epipe)) :: [Ev (EvWritten 0 None)])
              (soWrite hello_line reading).1) !! 0
    = Some (Rejected epipe).
Proof.
  assert (hello_line ≠ []) as Hdata by discriminate.
  assert (∀ f, Ev (EvWritten (length (writes reading)) f)
               ∉ [Ev (EvData hello_line)]) as Hbetween.
  { intros f Hin. apply list_elem_of_singleton in Hin. discriminate. }
  destruct (soWrite_settles_with_its_callback reading hello_line
              [Ev (EvData hello_line)] [Ev (EvWritten 0 None)] (Some epipe)
              Hdata eq_refl Hbetween)
    as (_ & _ & _ & _ & Hpending & _ & Hsettled).
  split_and!; [done | reflexivity | exact Hpending | exact Hsettled].
Defined.

(** X11.  [soRead] on a connection with no read outstanding, no error
    latched and the stream not ended returns a new pending promise and
    resumes the socket.  Through further calls ([soRead] again, which
    throws, and [soWrite]) and write callbacks the promise stays
    pending; the next data, end or error event settles it: with the
    chunk of the data event, with the empty buffer, or with the error.
    It keeps that outcome whatever follows.  The data listener pauses
    the socket again and frees the reader slot. *)
Theorem soRead_settles_with_next_event (w : World) (between : list Action) :
  reader (conn w) = None →
  err (conn w) = None →
  ended (conn w) = false →
  Forall no_read_event between →
  let p := length (reads w) in
  let w1 := (soRead w).1 in
  let settles ev outcome :=
    ∀ after, reads (run (between ++ Ev ev :: after) w1) !! p = Some outcome in
  (soRead w).2 = Normal p
  ∧ socket w1 = socket w ++ [Resume]
  ∧ writes w1 = writes w
  ∧ reads (run between w1) !! p = Some Pending
  ∧ (∀ data, settles (EvData data) (Fulfilled data))
  ∧ settles EvEnd (Fulfilled [])
  ∧ (∀ e, settles (EvError e) (Rejected e))
  ∧ ∀ data,
      let w2 := run (between ++ [Ev (EvData data)]) w1 in
      reader (conn w2) = None
      ∧ resumes (socket w2) = S (resumes (socket w))
      ∧ pauses (socket w2) = S (pauses (socket w)).
Proof.
  intros Hreader Herr Hended Hbetween p w1 settles.
  assert (soRead w
          = (mkWorld (mkConn (err (conn w)) (ended (conn w)) (Some p))
               (reads w ++ [Pending]) (writes w) (socket w ++ [Resume]),
             Normal p)) as Hrun.
  { unfold soRead. by rewrite Hreader, Herr, Hended. }
  subst w1 settles. rewrite Hrun. cbn [fst snd].
  remember (mkWorld _ _ _ _) as w1 eqn:Hw1.
  assert (reader (conn w1) = Some p) as Hreader1 by by subst w1.
  assert (reads w1 !! p = Some Pending) as Hp1
    by (subst w1; apply lookup_snoc).
  destruct (run_keeps_reading between w1 p Hreader1 Hp1 Hbetween)
    as (Hconn & Hp & Hres & Hpau).
  assert (reader (conn (run between w1)) = Some p) as Hreader2
    by by rewrite Hconn.
  assert (∀ ev outcome after,
    reads (act (Ev ev) (run between w1)) !! p = Some outcome →
    outcome ≠ Pending →
    reads (run (between ++ Ev ev :: after) w1) !! p = Some outcome) as Hafter.
  { intros ev outcome after Hev Hne. rewrite run_app. simpl.
    by apply run_keeps_settled. }
  split_and!.
  - done.
  - by subst w1.
  - by subst w1.
  - done.
  - intros data after. apply Hafter; [|done]. simpl. unfold on_data.
    rewrite Hreader2. simpl. by rewrite list_lookup_alter_eq, Hp.
  - intros after. apply Hafter; [|done]. simpl. unfold on_end.
    rewrite Hreader2. simpl. by rewrite list_lookup_alter_eq, Hp.
  - intros e after. apply Hafter; [|done]. simpl. unfold on_error.
    rewrite Hreader2. simpl. by rewrite list_lookup_alter_eq, Hp.
  - intros data. cbv zeta. rewrite run_snoc. simpl. unfold on_data.
    rewrite Hreader2. simpl.
    rewrite resumes_snoc, pauses_snoc, Hres, Hpau. subst w1. simpl.
    rewrite resumes_snoc, pauses_snoc. simpl. split_and!; [done|lia|lia].
Qed.

Lemma soRead_settles_with_next_event_witness :
  reader (conn soInit) = None
  ∧ err (conn soInit) = None
  ∧ ended (conn soInit) = false
  ∧ Forall no_read_event [CallRead; CallWrite hello_line]
  ∧ reads (run ([CallRead; CallWrite hello_line]
                ++ Ev (EvData quit_line) :: [Ev EvEnd; Ev (EvError reset)])
             (soRead soInit).1) !! 0
    = Some (Fulfilled quit_line).
Proof.
  assert (Forall no_read_event [CallRead; CallWrite hello_line]) as Hbetween
    by (repeat constructor).
  destruct (soRead_settles_with_next_event soInit
              [CallRead; CallWrite hello_line] eq_refl eq_refl eq_refl Hbetween)
    as (_ & _ & _ & _ & Hdata & _).
  split_and!; [reflexivity | reflexivity | reflexivity | exact Hbetween |].
  apply (Hdata quit_line [Ev EvEnd; Ev (EvError reset)]).
Defined.


(** X13.  On a connection made by [soInit], after any calls and
    events, the read promises that are pending are exactly the one
    whose callbacks [reader] holds: no pending promise is forgotten
    without being settled, and at most one read is pending. *)
Theorem pending_read_is_the_reader (trace : list Action) :
  let w := run trace soInit in
  (∀ p, reads w !! p = Some Pending ↔ reader (conn w) = Some p)
  ∧ (∀ p p', reads w !! p = Some Pending → reads w !! p' = Some Pending →
             p = p').
Proof.
  intros w.
  assert (∀ p, reads w !! p = Some Pending ↔ reader (conn w) = Some p) as Hiff.
  { intros p. split.
    - apply run_no_orphan_read.
    - intros Hreader. by apply (run_reader_pending trace) in Hreader as [? _]. }
  split; [done|]. intros p p' Hp Hp'.
  apply Hiff in Hp, Hp'. congruence.
Qed.

(** X14.  On a connection made by [soInit], after any calls and
    events, the socket was never paused more often than resumed and
    is at most one resume ahead; it is one ahead while a read is
    outstanding, and level when no read is outstanding and neither an
    error nor the end of the stream is latched. *)
Theorem socket_flow_is_balanced (trace : list Action) :
  let w := run trace soInit in
  pauses (socket w) ≤ resumes (socket w) ≤ S (pauses (socket w))
  ∧ (is_Some (reader (conn w)) → resumes (socket w) = S (pauses (socket w)))
  ∧ (reader (conn w) = None → err (conn w) = None → ended (conn w) = false →
     resumes (socket w) = pauses (socket w)).
Proof.
  intros w. pose proof (run_flow_balanced trace) as Hflow.
  fold w in Hflow. unfold flow_balanced in Hflow.
  destruct (reader (conn w)) as [p|].
  - split_and!; [lia | lia | done | done].
  - destruct Hflow as [[Hle Hge] Hlevel].
    split_and!; [done | done | by intros [? ?] | by intros _].
Qed.

(** X15.  Between two events of a connection served by [newConn], the
    promise that [serveClient] awaits is pending and it is the only
    pending promise of the connection: a read and a write are never
    outstanding together, and nothing is pending once [serveClient] is
    done.  The loop always reaches its next [await], its [return] or a
    [throw]. *)
Theorem served_connection_awaits_one_promise (events : list Event) :
  let s := serve events in
  (∀ p, reads (world s) !! p = Some Pending ↔ pc s = AwaitRead p)
  ∧ (∀ q, writes (world s) !! q = Some Pending ↔ pc s = AwaitWrite q)
  ∧ pc s ≠ OutOfFuel.
Proof.
  intros s. destruct (serve_quiescent events) as (Hw & Hr & Hpc).
  fold s in Hw, Hr, Hpc. split_and!.
  - intros p. split; [apply Hr|]. intros Heq. rewrite Heq in Hpc. tauto.
  - intros q. split; [apply Hw|]. intros Heq. rewrite Heq in Hpc. tauto.
  - intros Heq. by rewrite Heq in Hpc.
Qed.

(** X16.  [newConn] destroys the socket exactly when [serveClient] has
    returned or thrown, whichever of the two: after any events the log
    of socket calls holds [destroy] if and only if [serveClient] is
    done, and then [destroy] was called once and is the last call made
    on the socket. *)
Theorem socket_destroyed_when_done (events : list Event) :
  let s := serve events in
  (Destroy ∈ socket (world s) ↔ settled (pc s))
  ∧ (settled (pc s) →
     ∃ calls, socket (world s) = calls ++ [Destroy] ∧ Destroy ∉ calls).
Proof.
  intros s. destruct (serve_quiescent events) as (_ & _ & Hpc).
  fold s in Hpc.
  destruct (pc s) as [p|q| |e|]; simpl; try done.
  - destruct Hpc as [_ Hnot]. split; [done | intros []].
  - destruct Hpc as [_ Hnot]. split; [done | intros []].
  - destruct Hpc as [_ (calls & Hcalls & Hnot)]. split; [|by exists calls].
    split; [done|]. intros _. rewrite Hcalls. apply elem_of_app. right.
    by left.
  - destruct Hpc as [_ (calls & Hcalls & Hnot)]. split; [|by exists calls].
    split; [done|]. intros _. rewrite Hcalls. apply elem_of_app. right.
    by left.
Qed.

(** X17.  Once [serveClient] has returned or thrown, no later event
    brings it back or makes [newConn] call anything on the socket, a
    second [destroy] included. *)
Theorem done_is_final (events more : list Event) :
  settled (pc (serve events)) →
  pc (serve (events ++ more)) = pc (serve events)
  ∧ socket (world (serve (events ++ more))) = socket (world (serve events)).
Proof.
  intros Hdone. induction more as [|ev more [IHpc IHsocket]] using rev_ind.
  - by rewrite app_nil_r.
  - rewrite app_assoc, serve_snoc.
    destruct (deliver_done ev (serve (events ++ more))) as [Hpc Hsocket].
    + apply serve_quiescent.
    + by rewrite IHpc.
    + split; [by rewrite Hpc | by rewrite Hsocket].
Qed.

Lemma done_is_final_witness :
  settled (pc (serve [EvEnd]))
  ∧ pc (serve ([EvEnd] ++ [EvData hello_line; EvError reset; EvEnd]))
    = Returned
  ∧ socket (world (serve ([EvEnd] ++ [EvData hello_line; EvError reset; EvEnd])))
    = [Resume; Destroy].
Proof.
  destruct (done_is_final [EvEnd] [EvData hello_line; EvError reset; EvEnd] I)
    as [Hpc Hsocket].
  split_and!; [exact I | exact Hpc | exact Hsocket].
Defined.

(** X18.  The server writes only what it received: after any events
    the chunks passed to [socket.write], in order, form a subsequence
    of the chunks that the data events carried, and none of them is
    empty. *)
Theorem echo_only_what_arrived (events : list Event) :
  sublist (written (socket (world (serve events)))) (payloads events)
  ∧ Forall (λ data, data ≠ []) (written (socket (world (serve events)))).
Proof.
  induction events as [|ev events [IHsub IHne]] using rev_ind.
  - split; [by vm_compute | by apply Forall_nil].
  - rewrite serve_snoc, deliver_written
      by (apply serve_serving || apply serve_quiescent).
    unfold payloads. rewrite omap_app. fold (payloads events).
    split.
    + apply sublist_app; [done|]. unfold echo_of.
      destruct (pc (serve events)), ev; simpl; try apply sublist_nil_l.
      case_decide; [apply sublist_nil_l | done].
    + apply Forall_app. split; [done|]. unfold echo_of.
      destruct (pc (serve events)), ev; simpl; try apply Forall_nil_2.
      case_decide; [apply Forall_nil_2 | by apply Forall_singleton].
Qed.

(** X19.  While the write of an echo is outstanding the loop is not
    reading, so an end or error event only sets its latch; it takes
    effect when the write completes: the next [soRead] then yields the
    empty buffer or the error at once, [serveClient] returns or throws
    it, and the socket is destroyed without being resumed again.  A
    write that fails makes [serveClient] throw the failure. *)
Theorem shutdown_during_write (events : list Event) (q : nat) (e : JsError) :
  pc (serve events) = AwaitWrite q →
  let s := serve events in
  let closed := socket (world s) ++ [Destroy] in
  pc (serve (events ++ [EvEnd])) = AwaitWrite q
  ∧ pc (serve (events ++ [EvError e])) = AwaitWrite q
  ∧ (err (conn (world s)) = None →
     pc (serve (events ++ [EvEnd; EvWritten q None])) = Returned
     ∧ socket (world (serve (events ++ [EvEnd; EvWritten q None]))) = closed)
  ∧ pc (serve (events ++ [EvError e; EvWritten q None])) = Failed e
  ∧ socket (world (serve (events ++ [EvError e; EvWritten q None]))) = closed
  ∧ pc (serve (events ++ [EvWritten q (Some e)])) = Failed e
  ∧ socket (world (serve (events ++ [EvWritten q (Some e)]))) = closed.
Proof.
  intros Hpc s closed. subst closed.
  pose proof (serve_serving events) as Hserving.
  destruct (serve_quiescent events) as (_ & _ & Hq).
  fold s in Hpc, Hserving, Hq. unfold serving in Hserving.
  rewrite Hpc in Hserving, Hq.
  destruct Hserving as (Hreader & _ & Hsock). destruct Hq as [Hq _].
  change [EvEnd; EvWritten q None] with ([EvEnd] ++ [EvWritten q None]).
  change [EvError e; EvWritten q None]
    with ([EvError e] ++ [EvWritten q None]).
  rewrite !app_assoc, !serve_snoc. fold s.
  destruct s as [w pc0]. simpl in *. subst pc0.
  destruct (deliver_write_waits w q Hreader Hq EvEnd)
    as (-> & Hq1 & _ & Hsock1 & Hreader1); [done|done|].
  destruct (deliver_write_waits w q Hreader Hq (EvError e))
    as (-> & Hq2 & _ & Hsock2 & Hreader2); [done|done|].
  rewrite !deliver_write_done, deliver_write_failed
    by (done || by rewrite ?Hsock1, ?Hsock2).
  cbv zeta. simpl. unfold on_end, on_error. rewrite Hreader. simpl.
  split_and!; try done.
  intros Herr. by rewrite Herr.
Qed.

Lemma shutdown_during_write_witness :
  pc (serve [EvData hello_line]) = AwaitWrite 0
  ∧ pc (serve ([EvData hello_line] ++ [EvEnd])) = AwaitWrite 0
  ∧ pc (serve ([EvData hello_line] ++ [EvError reset; EvWritten 0 None]))
    = Failed reset
  ∧ socket (world (serve ([EvData hello_line]
                          ++ [EvError reset; EvWritten 0 None])))
    = [Resume; Pause; Write hello_line 0; Destroy].
Proof.
  destruct (shutdown_during_write [EvData hello_line] 0 reset eq_refl)
    as (Hend & _ & _ & Hpc & Hsocket & _).
  split_and!; [reflexivity | exact Hend | exact Hpc | exact Hsocket].
Defined.

(** X20.  The data listener accepts a chunk exactly while
    [serveClient] awaits a read: after any events of a served
    connection, a data event settles the awaited read if there is one,
    and otherwise (an echo is being written, or [serveClient] is done)
    the listener throws its [No reader available] error before it
    touches the connection or the socket. *)
Theorem data_listener_needs_a_reader (events : list Event) (data : list byte) :
  let s := serve events in
  match pc s with
  | AwaitRead p =>
      (handle (EvData data) (world s)).2 = Normal tt
      ∧ reads (handle (EvData data) (world s)).1 !! p = Some (Fulfilled data)
  | _ => handle (EvData data) (world s) = (world s, Throw no_reader_error)
  end.
Proof.
  intros s. pose proof (serve_reader events) as Hreader.
  pose proof (serve_serving events) as Hserving.
  fold s in Hreader, Hserving. unfold serving in Hserving.
  simpl. unfold on_data.
  destruct (pc s) as [p|q| |e|] eqn:Hpc.
  - destruct Hserving as (Hr & Hp & _). rewrite Hr. simpl.
    by rewrite list_lookup_alter_eq, Hp.
  - destruct (reader (conn (world s))) as [p|]; [|done].
    by specialize (proj1 (Hreader p) eq_refl).
  - destruct (reader (conn (world s))) as [p|]; [|done].
    by specialize (proj1 (Hreader p) eq_refl).
  - destruct (reader (conn (world s))) as [p|]; [|done].
    by specialize (proj1 (Hreader p) eq_refl).
  - done.
Qed.

End TcpConnExtra.

(** ** The callback-based echo server *)

Module CallbackServerFacts.
Import Node NodeFacts CallbackServer.

Lemma includes_elem_of data x : includes data x = true ↔ x ∈ data.
Proof.
  unfold includes. rewrite negb_true_iff, Z.eqb_neq. split.
  - intros Hfound. destruct (decide (x ∈ data)) as [|Hnot]; [done|].
    by rewrite index_from_absent in Hfound.
  - intros Hin. apply list_elem_of_split_l in Hin as (body & rest & -> & Hnot).
    rewrite index_from_first by done. lia.
Qed.

Lemma callback_serve_snoc events ev :
  serve (events ++ [ev]) = handle ev (serve events).
Proof. unfold serve. by rewrite foldl_app. Qed.

(** What one event makes the server call. *)
Lemma handle_appends ev socket : handle ev socket = socket ++ handle ev [].
Proof.
  destruct ev as [data|]; simpl; [|by rewrite app_nil_r].
  unfold on_data, on_end. simpl. destruct (includes data q); [|done].
  by rewrite <-app_assoc.
Qed.

Lemma ends_app log log' : ends (log ++ log') = ends log + ends log'.
Proof. unfold ends. by rewrite filter_app, length_app. Qed.

Lemma callback_written_app log log' :
  written (log ++ log') = written log ++ written log'.
Proof. apply omap_app. Qed.

End CallbackServerFacts.

Module CallbackServerExtra.
Import Node CallbackServer CallbackServerFacts.

(** X21.  The callback server of [tcp-server-callback.js] keeps no
    state between events: the calls it makes for a sequence of events
    are those for its parts, one after the other.  It passes every
    chunk it receives to [socket.write], unchanged and in order, and
    it calls [socket.end] once for every chunk that holds the byte
    [q]; since nothing records that call, chunks that arrive after it
    are written to the ended socket all the same. *)
Theorem callback_server_echoes_every_chunk (events more : list Event) :
  serve (events ++ more) = serve events ++ serve more
  ∧ written (serve events) = payloads events
  ∧ ends (serve events)
    = length (filter (λ data, q ∈ data) (payloads events)).
Proof.
  split_and!.
  - induction more as [|ev more IH] using rev_ind.
    + by rewrite !app_nil_r.
    + rewrite app_assoc, !callback_serve_snoc, IH.
      rewrite (handle_appends ev (serve events ++ serve more)).
      rewrite (handle_appends ev (serve more)). by rewrite app_assoc.
  - induction events as [|ev events IH] using rev_ind; [done|].
    rewrite callback_serve_snoc, handle_appends, callback_written_app, IH.
    unfold payloads. rewrite omap_app. f_equal.
    destruct ev as [data|]; simpl; [|done].
    unfold on_data. simpl. by destruct (includes data q).
  - induction events as [|ev events IH] using rev_ind; [done|].
    rewrite callback_serve_snoc, handle_appends, ends_app, IH.
    unfold payloads. rewrite omap_app, filter_app, length_app. f_equal.
    destruct ev as [data|]; simpl; [|done].
    unfold on_data. simpl.
    destruct (includes data q) eqn:Hq.
    + apply includes_elem_of in Hq. by rewrite filter_cons_True.
    + rewrite filter_cons_False; [done|].
      intros Hin. apply includes_elem_of in Hin. congruence.
Qed.

End CallbackServerExtra.
